(** * The task backend of [backend/main.go]: real-time hub and task pipeline

    A shallow embedding of the Fiber handlers of [main.go] (task creation,
    task listing, the WebSocket endpoint and the broadcast loop) as state
    passing functions over an explicit [World], followed by the properties
    of the registry of connected clients and of the persist-then-notify
    pipeline. *)

From Stdlib Require Import ZArith NArith Ascii String List.
From stdpp Require Import base option gmap strings list fin_maps sets.

Local Open Scope Z_scope.
Local Open Scope string_scope.
Local Open Scope list_scope.
Local Open Scope stdpp_scope.

(** ** Data model *)

(** A [*websocket.Conn]: only the identity of the pointer matters, it is the
    key of the [clients] map. *)
Abbreviation Conn := positive.

(** A [time.Time], as an instant counted from Go's zero time (the value of
    [time.Time{}]). *)
Abbreviation Time := Z.

Definition zero_time : Time := 0.

(** [type Task struct] (main.go, lines 34-40). *)
Record Task := mkTask {
  ID : Z;
  Title : string;
  Assigned : string;
  Status : string;
  CreatedAt : Time
}.

Global Instance Task_eq_dec : EqDecision Task.
Proof. solve_decision. Defined.

(** What is written to a connection: [WriteJSON(task)] sends the encoding of
    a Task, [WriteMessage(messageType, msg)] a frame as it was read. *)
Inductive Msg :=
| MsgJSON (t : Task)
| MsgRaw (messageType : Z) (payload : string).

Global Instance Msg_eq_dec : EqDecision Msg.
Proof. solve_decision. Defined.

(** The state of one connection object. [failing] is the transport (the
    remote is gone, the buffer is full); [closed] is set by [Close()]. *)
Record ConnState := mkConn {
  failing : bool;
  closed : bool
}.

Global Instance ConnState_eq_dec : EqDecision ConnState.
Proof. solve_decision. Defined.

(** The calls that leave the process, in the order they are made, and the
    entry of [broadcastTaskUpdate]. *)
Inductive Event :=
| EvExec (title assigned status : string) (created_at : Time) (ok : bool)
| EvQuery (ok : bool)
| EvBroadcast (t : Task)
| EvWrite (c : Conn) (m : Msg) (ok : bool)
| EvClose (c : Conn).

Global Instance Event_eq_dec : EqDecision Event.
Proof. solve_decision. Defined.

(** The package-level state of main.go ([clients], line 24; [dbConnection],
    line 23) with the connection objects the handles point to, the rows of
    the [tasks] table behind the connection, the identifier the store gives
    to the next row, and the log of external calls. *)
Record World := mkWorld {
  clients : gmap positive bool;
  conns : gmap positive ConnState;
  db_tasks : list Task;
  db_next_id : Z;
  trace : list Event
}.

Definition set_clients (f : gmap positive bool → gmap positive bool) (w : World) : World :=
  mkWorld (f (clients w)) (conns w) (db_tasks w) (db_next_id w) (trace w).

Definition set_conns (f : gmap positive ConnState → gmap positive ConnState) (w : World) : World :=
  mkWorld (clients w) (f (conns w)) (db_tasks w) (db_next_id w) (trace w).

Definition log (e : Event) (w : World) : World :=
  mkWorld (clients w) (conns w) (db_tasks w) (db_next_id w) (trace w ++ [e]).

(** ** The registry of connected clients *)

(** [clients[c] = true] (line 204). *)
Definition register (c : Conn) (m : gmap positive bool) : gmap positive bool :=
  <[c := true]> m.

(** [delete(clients, c)] (lines 206, 218, 231). *)
Definition unregister (c : Conn) (m : gmap positive bool) : gmap positive bool :=
  delete c m.

(** [for client := range clients]: Go visits the keys in an unspecified
    order, so the order is an input; [range_order m order] says that [order]
    is one of the orders the loop over [m] can take. *)
Definition range_order (m : gmap positive bool) (order : list Conn) : Prop :=
  NoDup order ∧ ∀ c, c ∈ order ↔ is_Some (m !! c).

(** A key deleted before the loop reaches it is not produced. *)
Definition range_clients (order : list Conn) (body : Conn → World → World)
    (w : World) : World :=
  foldl (λ w c, if decide (is_Some (clients w !! c)) then body c w else w) w order.

(** ** Connections *)

Definition writable (w : World) (c : Conn) : bool :=
  match conns w !! c with
  | Some st => negb (failing st) && negb (closed st)
  | None => false
  end.

(** [client.WriteJSON] / [client.WriteMessage]: the boolean is [err == nil]. *)
Definition conn_write (c : Conn) (m : Msg) (w : World) : bool * World :=
  let ok := writable w c in (ok, log (EvWrite c m ok) w).

Definition close_conn (st : ConnState) : ConnState := mkConn (failing st) true.

(** [client.Close()]; its result is dropped by every caller. *)
Definition conn_close (c : Conn) (w : World) : World :=
  log (EvClose c) (set_conns (alter close_conn c) w).

(** The body shared by the two loops over [clients] (lines 217-220 and
    229-233): write, and on an error unregister and close. *)
Definition send_or_drop (m : Msg) (client : Conn) (w : World) : World :=
  let '(ok, w1) := conn_write client m w in
  if ok then w1
  else conn_close client (set_clients (unregister client) w1).

(** [broadcastTaskUpdate] (lines 227-235). *)
Definition broadcastTaskUpdate (order : list Conn) (task : Task) (w : World) : World :=
  range_clients order (send_or_drop (MsgJSON task)) (log (EvBroadcast task) w).

(** ** Request bodies *)

(** What [encoding/json] finds in a request body for one tagged field of
    [Task]: the key is absent, holds [null], holds a value of the field's
    type, or holds something that does not decode at that type (another
    JSON type, a number that is no integer, a string that is no RFC 3339
    time). *)
Inductive Field (A : Type) :=
| Absent
| Null
| Value (a : A)
| Mistyped.

Arguments Absent {A}.
Arguments Null {A}.
Arguments Value {A} a.
Arguments Mistyped {A}.

(** A JSON object as seen through the tags of [Task] (lines 35-39); keys
    that match no tag are ignored by the decoder and are not recorded. *)
Record TaskJSON := mkTaskJSON {
  j_id : Field Z;
  j_title : Field string;
  j_assigned : Field string;
  j_status : Field string;
  j_created_at : Field Time
}.

(** A request body, for the requests with a JSON content type the front end
    sends: a JSON object (the document [null] decodes like the empty
    object), or anything [c.BodyParser] gives up on (no JSON, a JSON value
    that is no object). *)
Inductive Body :=
| Malformed
| Object (o : TaskJSON).

(** An absent key and [null] leave the field at its zero value. *)
Definition decode_field {A : Type} (zero : A) (f : Field A) : option A :=
  match f with
  | Absent | Null => Some zero
  | Value a => Some a
  | Mistyped => None
  end.

(** Go's [int] is 64 bits wide here; a literal outside that range is a
    decoding error. *)
Definition fits_int (n : Z) : bool := ((- 2 ^ 63 <=? n) && (n <? 2 ^ 63))%Z.

Definition decode_int (f : Field Z) : option Z :=
  n ← decode_field 0 f; if fits_int n then Some n else None.

(** [c.BodyParser(&task)] (line 156): [None] is a non-nil error. *)
Definition BodyParser (b : Body) : option Task :=
  match b with
  | Malformed => None
  | Object o =>
      id ← decode_int (j_id o);
      title ← decode_field "" (j_title o);
      assigned ← decode_field "" (j_assigned o);
      status ← decode_field "" (j_status o);
      created_at ← decode_field zero_time (j_created_at o);
      Some (mkTask id title assigned status created_at)
  end.

(** ** Responses *)

(** A Go slice is [nil] or holds elements; [encoding/json] writes [null] for
    the first and an array for the second. *)
Inductive Slice (A : Type) :=
| nil_slice
| slice (l : list A).

Arguments nil_slice {A}.
Arguments slice {A} l.

Definition elems {A : Type} (s : Slice A) : list A :=
  match s with nil_slice => [] | slice l => l end.

Definition append {A : Type} (s : Slice A) (x : A) : Slice A := slice (elems s ++ [x]).

Definition len {A : Type} (s : Slice A) : nat := length (elems s).

(** The JSON documents the handlers answer with: a one-entry [fiber.Map]
    and a slice of tasks. *)
Inductive JSON :=
| JNull
| JArray (l : list Task)
| JMap (key value : string).

Definition json_of_tasks (s : Slice Task) : JSON :=
  match s with nil_slice => JNull | slice l => JArray l end.

Record Response := mkResponse {
  status : Z;
  body : JSON
}.

(** ** The task store *)

(** Modelled from the spec: the DDL of the [tasks] table is not in the
    repository. The INSERT names no [id] column, and the store assigns the
    identifier of the new row ("identifier (unique, assigned by store)"):
    the row gets [next_id], and the next row another one. *)
Definition store_insert (title assigned status : string) (created_at : Time)
    (rows : list Task) (next_id : Z) : list Task * Z :=
  (rows ++ [mkTask next_id title assigned status created_at], next_id + 1).

(** [dbConnection.Exec] of the INSERT of lines 160-162. Whether the
    statement succeeds is the database's decision, [db_ok]. The row holds the
    three fields of the request and the [time.Now()] passed as fourth
    argument. *)
Definition db_insert_task (db_ok : bool) (title assigned status : string) (now : Time)
    (w : World) : bool * World :=
  let w1 := log (EvExec title assigned status now db_ok) w in
  if db_ok then
    let stored := store_insert title assigned status now (db_tasks w1) (db_next_id w1) in
    (true, mkWorld (clients w1) (conns w1) stored.1 stored.2 (trace w1))
  else (false, w1).

(** What the handler of [getTasks] sees of [dbConnection.Query]: an error,
    or for every row that [rows.Next()] produced the result of [rows.Scan]
    ([None] is a scan error). *)
Inductive QueryResult :=
| QueryErr
| QueryRows (scans : list (option Task)).

(** ** Handlers *)

(** [createTask] (lines 154-171). *)
Definition createTask (now : Time) (db_ok : bool) (order : list Conn) (b : Body)
    (w : World) : Response * World :=
  match BodyParser b with
  | None => (mkResponse 400 (JMap "error" "Invalid request"), w)
  | Some task =>
      let '(ok, w1) :=
        db_insert_task db_ok (Title task) (Assigned task) (Status task) now w in
      if ok then
        (mkResponse 200 (JMap "message" "Task created successfully"),
         broadcastTaskUpdate order task w1)
      else (mkResponse 500 (JMap "error" "Failed to create task"), w1)
  end.

(** The loop of lines 181-189: a row whose scan fails is skipped. *)
Definition collect_tasks (scans : list (option Task)) : Slice Task :=
  foldl (λ tasks sc, match sc with Some task => append tasks task | None => tasks end)
        nil_slice scans.

(** [getTasks] (lines 174-199). *)
Definition getTasks (q : QueryResult) (w : World) : Response * World :=
  match q with
  | QueryErr =>
      (mkResponse 500 (JMap "error" "Failed to retrieve tasks"), log (EvQuery false) w)
  | QueryRows scans =>
      let tasks := collect_tasks scans in
      let w1 := log (EvQuery true) w in
      if Nat.eqb (len tasks) 0 then (mkResponse 200 (json_of_tasks (slice [])), w1)
      else (mkResponse 200 (json_of_tasks tasks), w1)
  end.

(** The handler of [/ws] (lines 203-223), in three parts: the registration
    of line 204, the body of the read loop for one message that
    [c.ReadMessage()] returned, and the deferred function of lines 205-208. *)
Definition ws_register (c : Conn) (w : World) : World :=
  set_clients (register c) w.

Definition ws_on_message (order : list Conn) (messageType : Z) (msg : string)
    (w : World) : World :=
  range_clients order (send_or_drop (MsgRaw messageType msg)) w.

Definition ws_deferred (c : Conn) (w : World) : World :=
  conn_close c (set_clients (unregister c) w).

Definition is_closed (w : World) (c : Conn) : bool :=
  match conns w !! c with Some st => closed st | None => true end.

(** The read loop of connection [c] (lines 210-222): [inputs] are the frames
    that [c.ReadMessage()] returns before its first error, each with the
    order the loop over [clients] takes for it. The loop is left on that
    error only; nothing in its body looks at [c], not even after the write
    to [c] has failed and [c] has been closed. *)
Fixpoint ws_loop (c : Conn) (inputs : list (list Conn * Z * string)) (w : World) : World :=
  match inputs with
  | [] => w
  | (order, messageType, msg) :: rest =>
      ws_loop c rest (ws_on_message order messageType msg w)
  end.

Definition ws_handler (c : Conn) (inputs : list (list Conn * Z * string)) (w : World) : World :=
  ws_deferred c (ws_loop c inputs (ws_register c w)).

(** ** The HTTP front: middleware and routes of [main] (lines 62-74) *)

(** The methods of a request: [OtherMethod] stands for the methods no route
    is registered for (PUT, DELETE, PATCH, ...). *)
Inductive Method := GET | HEAD | POST | OPTIONS | OtherMethod.

Global Instance Method_eq_dec : EqDecision Method.
Proof. solve_decision. Defined.

(** A request. [preflight] says that the request carries the headers by
    which [cors.New()] takes an OPTIONS request for a preflight; [upgrade]
    that it is a WebSocket handshake the upgrader accepts. *)
Record Request := mkRequest {
  method : Method;
  path : string;
  authorization : option string;
  preflight : bool;
  upgrade : bool;
  req_body : Body
}.

(** What a handler takes from outside the process while it serves one
    request: the clock, the database's answers, the order of the loop over
    [clients], and for an upgraded request its connection object and the
    frames the client sends over it. *)
Record Env := mkEnv {
  now : Time;
  db_ok : bool;
  order : list Conn;
  query : QueryResult;
  new_conn : Conn;
  frames : list (list Conn * Z * string)
}.

Inductive Route :=
| RouteWs
| RouteRegister
| RouteLogin
| RouteTask
| RouteTasks
| RouteSuggest.

(** The route table in the order of registration (lines 67-74); [app.Get]
    registers its handler for HEAD as well as for GET. *)
Definition routes : list (Method * string * Route) :=
  [ (HEAD, "/ws", RouteWs);
    (GET, "/ws", RouteWs);
    (POST, "/register", RouteRegister);
    (POST, "/login", RouteLogin);
    (POST, "/task", RouteTask);
    (HEAD, "/tasks", RouteTasks);
    (GET, "/tasks", RouteTasks);
    (POST, "/task/suggest", RouteSuggest) ].

(** [fiber.New()] routes without case-sensitive and without strict matching:
    the path of a request is compared in lower case (ASCII letters) and, when
    it is longer than one character, without its trailing slashes. *)
Definition lower_ascii (a : ascii) : ascii :=
  let n := Ascii.N_of_ascii a in
  if ((65 <=? n) && (n <=? 90))%N then Ascii.ascii_of_N (n + 32) else a.

Fixpoint ToLower (s : string) : string :=
  match s with
  | EmptyString => EmptyString
  | String a rest => String (lower_ascii a) (ToLower rest)
  end.

Fixpoint TrimRight_slash (s : string) : string :=
  match s with
  | EmptyString => EmptyString
  | String a rest =>
      match TrimRight_slash rest with
      | EmptyString => if decide (a = "/"%char) then EmptyString else String a EmptyString
      | trimmed => String a trimmed
      end
  end.

Definition detectionPath (p : string) : string :=
  let lowered := ToLower p in
  if (1 <? String.length lowered)%nat then TrimRight_slash lowered else lowered.

Fixpoint lookup_route (table : list (Method * string * Route)) (m : Method) (d : string)
    : option Route :=
  match table with
  | [] => None
  | (m', p', r) :: rest =>
      if decide (m = m' ∧ d = p') then Some r else lookup_route rest m d
  end.

(** The first route registered for the method whose path is the path of the
    request as Fiber compares it. *)
Definition find_route (table : list (Method * string * Route)) (m : Method) (p : string)
    : option Route :=
  lookup_route table m (detectionPath p).

(** A route for some method has the path: the request that finds no route is
    then answered 405 and not 404. *)
Definition methodExist (table : list (Method * string * Route)) (p : string) : bool :=
  bool_decide (detectionPath p ∈ (λ e : Method * string * Route, e.1.2) <$> table).

Inductive Reply :=
| ReplyJSON (r : Response)
| ReplyStatus (code : Z)
| ReplySwitch (c : Conn).

(** [cors.New()] with its default configuration answers a preflight itself
    and lets every other request through to the next handler, an OPTIONS
    request that is no preflight among them; [logger.New()] lets every
    request through. Neither reads the Authorization header. *)
Definition cors (req : Request) : option Reply :=
  if decide (method req = OPTIONS) then
    if preflight req then Some (ReplyStatus 204) else None
  else None.

Definition logger (req : Request) : option Reply := None.

Definition middleware : list (Request → option Reply) := [cors; logger].

Fixpoint run_middleware (ms : list (Request → option Reply)) (req : Request) : option Reply :=
  match ms with
  | [] => None
  | m :: rest => match m req with Some r => Some r | None => run_middleware rest req end
  end.

(** The upgrade hands the handler a connection that is open and whose
    transport works. *)
Definition conn_open (c : Conn) (w : World) : World :=
  set_conns (<[c := mkConn false false]>) w.

(** One request through the application. The handlers of [/register],
    [/login] and [/task/suggest] touch neither the registry nor the task
    table and are left out: [None] stands for their run. The handler that
    [websocket.New] wraps answers 426 to a request that is no upgrade and
    otherwise runs the function of lines 203-223 on the new connection, to
    its end. A request that finds no route is answered 405 when its path is
    the path of a route, and 404 otherwise. *)
Definition app (env : Env) (req : Request) (w : World) : option (Reply * World) :=
  match run_middleware middleware req with
  | Some r => Some (r, w)
  | None =>
      match find_route routes (method req) (path req) with
      | Some RouteTask =>
          let '(r, w1) := createTask (now env) (db_ok env) (order env) (req_body req) w in
          Some (ReplyJSON r, w1)
      | Some RouteTasks =>
          let '(r, w1) := getTasks (query env) w in Some (ReplyJSON r, w1)
      | Some RouteWs =>
          if upgrade req && bool_decide (method req = GET) then
            Some (ReplySwitch (new_conn env),
                  ws_handler (new_conn env) (frames env) (conn_open (new_conn env) w))
          else Some (ReplyStatus 426, w)
      | Some _ => None
      | None => Some (ReplyStatus (if methodExist routes (path req) then 405 else 404), w)
      end
  end.

(** ** Reading the log *)

Definition is_exec (e : Event) : bool :=
  match e with EvExec _ _ _ _ _ => true | _ => false end.

Definition is_broadcast (e : Event) : bool :=
  match e with EvBroadcast _ => true | _ => false end.

Definition is_delivery (e : Event) : bool :=
  match e with EvWrite _ _ true => true | _ => false end.

(** The messages that reached connection [c]: its successful writes. *)
Definition delivery (c : Conn) (e : Event) : option Msg :=
  match e with
  | EvWrite c' m true => if decide (c' = c) then Some m else None
  | _ => None
  end.

Definition delivered (c : Conn) (evs : list Event) : list Msg :=
  omap (delivery c) evs.

(** The connections a run has tried to write to, in the order of the
    attempts. *)
Definition attempt (e : Event) : option Conn :=
  match e with EvWrite c _ _ => Some c | _ => None end.

Definition attempted (evs : list Event) : list Conn := omap attempt evs.

(** The events one turn of a loop over [clients] leaves for [c]. *)
Definition send_events (w : World) (m : Msg) (c : Conn) : list Event :=
  if writable w c then [EvWrite c m true] else [EvWrite c m false; EvClose c].

(** The events logged by a run from [w] to [w']. *)
Definition new_events (w w' : World) : list Event :=
  drop (length (trace w)) (trace w').

(** The registered handles whose transport fails. *)
Definition failing_clients (w : World) : gset positive :=
  filter (λ c, writable w c = false) (dom (clients w)).

(** ** Vocabulary of the statements *)

(** The bodies [c.BodyParser] returns an error for. *)
Definition undecodable (b : Body) : Prop :=
  match b with
  | Malformed => True
  | Object o =>
      j_id o = Mistyped
      ∨ (∃ n, j_id o = Value n ∧ fits_int n = false)
      ∨ j_title o = Mistyped
      ∨ j_assigned o = Mistyped
      ∨ j_status o = Mistyped
      ∨ j_created_at o = Mistyped
  end.

(** The value a decoded field takes. *)
Definition field_or {A : Type} (zero : A) (f : Field A) : A :=
  match f with Value a => a | _ => zero end.

(** A body lacks part of the shape the specification asks for: the title,
    the assignee or the status is missing. *)
Definition shape_invalid (b : Body) : Prop :=
  match b with
  | Malformed => True
  | Object o => j_title o = Absent ∨ j_assigned o = Absent ∨ j_status o = Absent
  end.


(** The calls on the registry: line 204 registers, lines 206, 218 and 231
    unregister. The map starts empty (line 24). *)
Inductive RegistryOp :=
| OpRegister (c : Conn)
| OpUnregister (c : Conn).

Definition apply_op (m : gmap positive bool) (op : RegistryOp) : gmap positive bool :=
  match op with
  | OpRegister c => register c m
  | OpUnregister c => unregister c m
  end.

Definition run_ops (ops : list RegistryOp) : gmap positive bool :=
  foldl apply_op ∅ ops.

(** The specification's side: the set of handles currently registered after
    a sequence of calls, a handle being in it from a [register] to the next
    [unregister]. *)
Definition spec_op (s : gset positive) (op : RegistryOp) : gset positive :=
  match op with
  | OpRegister c => {[c]} ∪ s
  | OpUnregister c => s ∖ {[c]}
  end.

Definition registered_handles (ops : list RegistryOp) : gset positive :=
  foldl spec_op ∅ ops.

Definition with_authorization (a : option string) (req : Request) : Request :=
  mkRequest (method req) (path req) a (preflight req) (upgrade req) (req_body req).

Definition unauthorized (r : Reply) : bool :=
  match r with
  | ReplyJSON r => (status r =? 401)%Z
  | ReplyStatus code => (code =? 401)%Z
  | ReplySwitch _ => false
  end.


(** The orders that come with the frames are orders the loop over [clients]
    can take in the states in which the frames are read. *)
Fixpoint orders_fit (inputs : list (list Conn * Z * string)) (w : World) : Prop :=
  match inputs with
  | [] => True
  | (order, messageType, msg) :: rest =>
      range_order (clients w) order
      ∧ orders_fit rest (ws_on_message order messageType msg w)
  end.

Definition frame_of (i : list Conn * Z * string) : Msg := MsgRaw i.1.2 i.2.

(** ** Sample states *)

Definition healthy : ConnState := mkConn false false.
Definition broken : ConnState := mkConn true false.

(** One subscriber on a healthy connection; the store will give the next
    row the identifier 7. *)
Definition one_subscriber : World :=
  mkWorld {[1%positive := true]} {[1%positive := healthy]} [] 7 [].

(** Three subscribers, the second on a failing transport. *)
Definition three_subscribers : World :=
  mkWorld {[1%positive := true; 2%positive := true; 3%positive := true]}
          {[1%positive := healthy; 2%positive := broken; 3%positive := healthy]} [] 7 [].

(** Two open connections, the first of them registered. *)
Definition lobby : World :=
  mkWorld {[1%positive := true]} {[1%positive := healthy; 2%positive := healthy]} [] 7 [].

Definition body_X : Body :=
  Object (mkTaskJSON Absent (Value "X") (Value "alice") (Value "open") Absent).

Definition body_no_title : Body :=
  Object (mkTaskJSON Absent Absent (Value "alice") (Value "open") Absent).

Definition task_X : Task := mkTask 0 "X" "alice" "open" zero_time.

Definition demo_env : Env :=
  mkEnv 1000 true [1%positive] (QueryRows []) 2%positive [].

(** ** States reached from one another *)

Definition is_write (e : Event) : bool :=
  match e with EvWrite _ _ _ => true | _ => false end.


(** A loop over [clients] only ever drops handles, and only handles it
    could not write to: [prunes w w'] says that every handle registered in
    [w'] was registered in [w], with the same entry and the same connection
    state, and that every handle registered in [w] with a working connection
    is still registered, its connection untouched. *)
Definition prunes (w w' : World) : Prop :=
  (∀ c, is_Some (clients w' !! c) →
        clients w' !! c = clients w !! c ∧ conns w' !! c = conns w !! c)
  ∧ (∀ c, is_Some (clients w !! c) → writable w c = true →
          clients w' !! c = clients w !! c ∧ conns w' !! c = conns w !! c).

(** No closed connection is registered. *)
Definition registry_open (w : World) : Prop :=
  ∀ c, is_Some (clients w !! c) → is_closed w c = false.

(** Broadcasts made one after the other, each with the order its loop
    takes. *)
Fixpoint broadcast_all (jobs : list (list Conn * Task)) (w : World) : World :=
  match jobs with
  | [] => w
  | (order, task) :: rest => broadcast_all rest (broadcastTaskUpdate order task w)
  end.

Fixpoint jobs_fit (jobs : list (list Conn * Task)) (w : World) : Prop :=
  match jobs with
  | [] => True
  | (order, task) :: rest =>
      range_order (clients w) order ∧ jobs_fit rest (broadcastTaskUpdate order task w)
  end.

(** A registered client, and a second connection, not registered yet, whose
    transport fails. *)
Definition failing_guest : World :=
  mkWorld {[1%positive := true]} {[1%positive := healthy; 2%positive := broken]} [] 7 [].

(** ** Users, login and tokens *)

(** [type User struct] (lines 27-31). *)
Record User := mkUser {
  user_ID : Z;
  user_Username : string;
  user_Password : string
}.

(** [type LoginRequest struct] (lines 43-46). *)
Record LoginRequest := mkLoginRequest {
  login_Username : string;
  login_Password : string
}.

(** A request body for a struct other than Task: a JSON object seen through
    the tags of the struct, or a body [c.BodyParser] gives up on. *)
Inductive ParsedBody (J : Type) :=
| BadBody
| JsonBody (o : J).

Arguments BadBody {J}.
Arguments JsonBody {J} o.

Record UserJSON := mkUserJSON {
  uj_id : Field Z;
  uj_username : Field string;
  uj_password : Field string
}.

Record LoginJSON := mkLoginJSON {
  lj_username : Field string;
  lj_password : Field string
}.

(** [c.BodyParser(&user)] (line 83). *)
Definition parse_User (b : ParsedBody UserJSON) : option User :=
  match b with
  | BadBody => None
  | JsonBody o =>
      id ← decode_int (uj_id o);
      username ← decode_field "" (uj_username o);
      password ← decode_field "" (uj_password o);
      Some (mkUser id username password)
  end.

(** [c.BodyParser(&req)] (line 100). *)
Definition parse_LoginRequest (b : ParsedBody LoginJSON) : option LoginRequest :=
  match b with
  | BadBody => None
  | JsonBody o =>
      username ← decode_field "" (lj_username o);
      password ← decode_field "" (lj_password o);
      Some (mkLoginRequest username password)
  end.

(** [registerUser] (lines 81-95) on the rows of the [users] table. The
    INSERT names the two columns [username] and [password]: the identifier
    of the row is the store's, [new_id], and the one of the body is dropped.
    Whether the statement succeeds is the database's decision, [db_ok]. *)
Definition registerUser (db_ok : bool) (new_id : Z) (b : ParsedBody UserJSON)
    (users : list User) : Response * list User :=
  match parse_User b with
  | None => (mkResponse 400 (JMap "error" "Invalid request"), users)
  | Some user =>
      if db_ok then
        (mkResponse 200 (JMap "message" "User registered successfully"),
         users ++ [mkUser new_id (user_Username user) (user_Password user)])
      else (mkResponse 500 (JMap "error" "Failed to register user"), users)
  end.

(** [GetUserFromDB] (lines 124-135): the first row the SELECT returns for
    the name, the rows being taken in the order of the list; [None] is the
    error of [Scan], for a failed query and for no row alike. *)
Definition GetUserFromDB (db_ok : bool) (username : string) (users : list User)
    : option User :=
  if db_ok then snd <$> list_find (λ u, user_Username u = username) users
  else None.

(** The claims of a token (lines 141-143). *)
Record JWTClaims := mkClaims {
  claim_user_id : Z;
  claim_username : string;
  claim_exp : Z
}.

(** [GenerateJWT] (lines 138-151). [now] is the clock in nanoseconds since
    the Unix epoch; [time.Now().Add(time.Hour * 24).Unix()] is counted in
    whole seconds. The HS256 signature is the library's: [SignedString]
    gives the token for the claims and the key, or an error. *)
Definition GenerateJWT (SignedString : JWTClaims → string → option string)
    (jwtSecret : string) (now : Z) (user : User) : option string :=
  SignedString
    (mkClaims (user_ID user) (user_Username user)
              ((now + 24 * 3600 * 10 ^ 9) `div` 10 ^ 9)%Z)
    jwtSecret.

(** [LoginHandler] (lines 98-121). *)
Definition LoginHandler (SignedString : JWTClaims → string → option string)
    (jwtSecret : string) (now : Z) (db_ok : bool) (b : ParsedBody LoginJSON)
    (users : list User) : Response :=
  match parse_LoginRequest b with
  | None => mkResponse 400 (JMap "error" "Bad request")
  | Some req =>
      match GetUserFromDB db_ok (login_Username req) users with
      | None => mkResponse 401 (JMap "error" "Unauthorized")
      | Some user =>
          if decide (user_Password user ≠ login_Password req)
          then mkResponse 401 (JMap "error" "Unauthorized")
          else
            match GenerateJWT SignedString jwtSecret now user with
            | None => mkResponse 500 (JMap "error" "Failed to generate token")
            | Some token => mkResponse 200 (JMap "token" token)
            end
      end
  end.

(** A stand-in for the signature, for the sample runs. *)
Definition sample_sign (claims : JWTClaims) (key : string) : option string :=
  Some (String.append (claim_username claims) key).

(** ** Start of the process *)

(** [os.Getenv]: the empty string for a variable that is not set. *)
Definition Getenv (key : string) (environ : gmap string string) : string :=
  default "" (environ !! key).

(** The assignments of a [.env] file as a map: of two assignments of one
    variable the later one counts. *)
Definition dotenv_map (file : list (string * string)) : gmap string string :=
  foldl (λ m kv, <[kv.1 := kv.2]> m) ∅ file.

(** [godotenv.Load()]: [None] when [.env] cannot be read. A variable that is
    already in the environment keeps its value. *)
Definition godotenv_Load (file : option (list (string * string)))
    (environ : gmap string string) : option (gmap string string) :=
  match file with
  | None => None
  | Some assignments => Some (environ ∪ dotenv_map assignments)
  end.

Record Config := mkConfig {
  jwtSecret : string;
  dbURL : string;
  environ : gmap string string
}.

Inductive Boot :=
| FatalDotenv
| FatalDatabase
| Serving (cfg : Config).

(** The package-level initialisation of line 22 and [main] down to the
    connection (lines 48-60). [jwtSecret] is set when the package is
    initialised, before [main] runs. [connect] says for which URLs
    [pgx.Connect] succeeds. *)
Definition boot (process_env : gmap string string)
    (file : option (list (string * string))) (connect : string → bool) : Boot :=
  let secret := Getenv "JWT_SECRET" process_env in
  match godotenv_Load file process_env with
  | None => FatalDotenv
  | Some env =>
      let url := Getenv "DATABASE_URL" env in
      if connect url then Serving (mkConfig secret url env) else FatalDatabase
  end.

(** ** Suggestions *)

(** A JSON document as [encoding/json] decodes it into [interface{}]. *)
#[local] Unset Elimination Schemes.

Inductive JValue :=
| JVNull
| JVBool (b : bool)
| JVNumber (literal : string)
| JVString (s : string)
| JVArray (items : list JValue)
| JVObject (fields : list (string * JValue)).

#[local] Set Elimination Schemes.

(** [res[key]] on the map an object decodes to: of two members with one
    name the later one counts; [None] is the [nil] a missing key gives. *)
Fixpoint json_lookup (key : string) (fields : list (string * JValue)) : option JValue :=
  match fields with
  | [] => None
  | (k, v) :: rest =>
      match json_lookup key rest with
      | Some v' => Some v'
      | None => if decide (k = key) then Some v else None
      end
  end.

(** The parts of the request of lines 254-264. *)
Record OpenAIRequest := mkOpenAIRequest {
  oa_url : string;
  oa_authorization : string;
  oa_content_type : string;
  oa_model : string;
  oa_prompt : string;
  oa_max_tokens : Z
}.

(** What [client.Do] gives: an error, or a response with its status and the
    first JSON value of its body ([None] when the body starts with none). *)
Inductive HttpResult :=
| HttpError
| HttpResponse (code : Z) (doc : option JValue).

Inductive OpenAIResult :=
| Suggestion (text : string)
| TransportError
| OtherError (msg : string).

(** [json.NewDecoder(resp.Body).Decode(&res)] with its error dropped (line
    274): the members of an object; the [nil] map for [null], for any other
    document and for no document. *)
Definition decode_map (doc : option JValue) : list (string * JValue) :=
  match doc with
  | Some (JVObject fields) => fields
  | _ => []
  end.

(** The request [callOpenAI] builds (lines 254-264). *)
Definition openai_request (prompt apiKey : string) : OpenAIRequest :=
  mkOpenAIRequest "https://api.openai.com/v1/completions"
    (String.append "Bearer " apiKey) "application/json" "gpt-4" prompt 100.

(** [callOpenAI] (lines 253-293); [http] is the remote end. The status of
    the response is not looked at. *)
Definition callOpenAI (http : OpenAIRequest → HttpResult) (prompt apiKey : string)
    : OpenAIResult :=
  match http (openai_request prompt apiKey) with
  | HttpError => TransportError
  | HttpResponse _ doc =>
      let res := decode_map doc in
      match json_lookup "choices" res with
      | Some (JVArray (first :: _)) =>
          match first with
          | JVObject choice =>
              match json_lookup "text" choice with
              | Some (JVString text) => Suggestion text
              | _ => OtherError "text not found in response"
              end
          | _ => OtherError "invalid response structure"
          end
      | _ => OtherError "invalid response from OpenAI"
      end
  end.

Record PromptJSON := mkPromptJSON {
  pj_prompt : Field string
}.

(** [c.BodyParser(&req)] (line 241): the prompt. *)
Definition parse_Prompt (b : ParsedBody PromptJSON) : option string :=
  match b with
  | BadBody => None
  | JsonBody o => decode_field "" (pj_prompt o)
  end.

(** [suggestTask] (lines 236-252); the key is read from the environment
    while the request is served. *)
Definition suggestTask (http : OpenAIRequest → HttpResult)
    (environ : gmap string string) (b : ParsedBody PromptJSON) : Response :=
  match parse_Prompt b with
  | None => mkResponse 400 (JMap "error" "Invalid request")
  | Some prompt =>
      match callOpenAI http prompt (Getenv "OPENAI_API_KEY" environ) with
      | Suggestion text => mkResponse 200 (JMap "suggestion" text)
      | _ => mkResponse 500 (JMap "error" "Failed to get AI suggestions")
      end
  end.

(** ** One turn of a loop over [clients], and the whole loop *)

Section SendOrDrop.
Variables (m : Msg) (c : Conn) (w : World).

Lemma send_or_drop_clients :
  clients (send_or_drop m c w)
  = if writable w c then clients w else delete c (clients w).
Proof. unfold send_or_drop, conn_write. by destruct (writable w c). Qed.

Lemma send_or_drop_conns :
  conns (send_or_drop m c w)
  = if writable w c then conns w else alter close_conn c (conns w).
Proof. unfold send_or_drop, conn_write. by destruct (writable w c). Qed.

Lemma send_or_drop_trace :
  trace (send_or_drop m c w) = trace w ++ send_events w m c.
Proof.
  unfold send_or_drop, conn_write, send_events.
  destruct (writable w c); simpl; [done|]. by rewrite <- app_assoc.
Qed.

Lemma send_or_drop_db :
  db_tasks (send_or_drop m c w) = db_tasks w
  ∧ db_next_id (send_or_drop m c w) = db_next_id w.
Proof. unfold send_or_drop, conn_write. by destruct (writable w c). Qed.

Lemma send_or_drop_writable_ne c' :
  c' ≠ c → writable (send_or_drop m c w) c' = writable w c'.
Proof.
  intros Hne. unfold writable at 1. rewrite send_or_drop_conns.
  destruct (writable w c); [done|]. by rewrite lookup_alter_ne.
Qed.
End SendOrDrop.

(** The whole loop, when [order] lists registered handles without
    repetition: every handle is tried once, the handles whose write fails are
    unregistered and closed, nothing else changes. *)
Lemma range_send (m : Msg) (order : list Conn) (w : World) :
  NoDup order →
  (∀ c, c ∈ order → is_Some (clients w !! c)) →
  let w' := range_clients order (send_or_drop m) w in
  (∀ c, clients w' !! c
        = if decide (c ∈ order ∧ writable w c = false) then None else clients w !! c)
  ∧ (∀ c, conns w' !! c
        = if decide (c ∈ order ∧ writable w c = false)
          then close_conn <$> conns w !! c else conns w !! c)
  ∧ trace w' = trace w ++ (order ≫= send_events w m)
  ∧ db_tasks w' = db_tasks w
  ∧ db_next_id w' = db_next_id w.
Proof.
  intros Hnd. revert w. induction Hnd as [|c rest Hc Hnd IH]; intros w Hin; simpl.
  - repeat split; try done. by rewrite app_nil_r.
  - unfold range_clients. simpl.
    destruct (decide (is_Some (clients w !! c))) as [_|Hno];
      [|destruct Hno; apply Hin; left].
    set (w1 := send_or_drop m c w).
    assert (Hin1 : ∀ c', c' ∈ rest → is_Some (clients w1 !! c')).
    { intros c' Hc'. subst w1. rewrite send_or_drop_clients.
      assert (c' ≠ c) by (intros ->; contradiction).
      destruct (writable w c); [apply Hin; by right|].
      rewrite lookup_delete_ne by done. apply Hin; by right. }
    destruct (IH w1 Hin1) as (Hcl & Hco & Htr & Hdb & Hid).
    fold (range_clients rest (send_or_drop m) w1).
    assert (Hw : ∀ c', c' ∈ rest → writable w1 c' = writable w c').
    { intros c' Hc'. apply send_or_drop_writable_ne. intros ->; contradiction. }
    repeat split.
    + intros c'. rewrite Hcl. subst w1. rewrite send_or_drop_clients.
      destruct (decide (c' = c)) as [->|Hne].
      * rewrite decide_False by (intros [? _]; contradiction).
        destruct (writable w c) eqn:E.
        -- rewrite decide_False by (intros [_ ?]; congruence). done.
        -- rewrite decide_True by (split; [left|done]). by rewrite lookup_delete_eq.
      * rewrite send_or_drop_writable_ne by done.
        destruct (decide (c' ∈ rest ∧ writable w c' = false)) as [[H1 H2]|Hn].
        -- by rewrite decide_True by (split; [by right|done]).
        -- rewrite decide_False.
           ++ destruct (writable w c); [done|]. by rewrite lookup_delete_ne.
           ++ intros [H1 H2]. apply Hn. split; [|done].
              apply elem_of_cons in H1 as [?|?]; [congruence|done].
    + intros c'. rewrite Hco. subst w1. rewrite send_or_drop_conns.
      destruct (decide (c' = c)) as [->|Hne].
      * rewrite decide_False by (intros [? _]; contradiction).
        destruct (writable w c) eqn:E.
        -- rewrite decide_False by (intros [_ ?]; congruence). done.
        -- rewrite decide_True by (split; [left|done]). by rewrite lookup_alter_eq.
      * rewrite send_or_drop_writable_ne by done.
        destruct (decide (c' ∈ rest ∧ writable w c' = false)) as [[H1 H2]|Hn].
        -- rewrite decide_True by (split; [by right|done]).
           destruct (writable w c); [done|]. by rewrite lookup_alter_ne.
        -- rewrite decide_False.
           ++ destruct (writable w c); [done|]. by rewrite lookup_alter_ne.
           ++ intros [H1 H2]. apply Hn. split; [|done].
              apply elem_of_cons in H1 as [?|?]; [congruence|done].
    + rewrite Htr. subst w1. rewrite send_or_drop_trace, <- app_assoc.
      do 2 f_equal. apply Forall_bind_ext, Forall_forall.
      intros c' Hc'. unfold send_events. by rewrite Hw.
    + rewrite Hdb. subst w1. apply send_or_drop_db.
    + rewrite Hid. subst w1. apply send_or_drop_db.
Qed.

Lemma range_order_NoDup (m : gmap positive bool) (order : list Conn) :
  range_order m order → NoDup order.
Proof. by intros [? _]. Qed.

Lemma range_order_registered (m : gmap positive bool) (order : list Conn) (c : Conn) :
  range_order m order → c ∈ order ↔ is_Some (m !! c).
Proof. intros [_ H]. apply H. Qed.

(** The keys of the map, in the order of its list of entries, are one of the
    orders a loop can take: the hypothesis [range_order] is never empty. *)
Lemma range_order_exists (m : gmap positive bool) :
  range_order m (map_to_list m).*1.
Proof.
  split; [apply NoDup_fst_map_to_list|].
  intros c. rewrite list_elem_of_fmap. split.
  - intros [[c' b] [-> H]]. apply elem_of_map_to_list in H. by exists b.
  - intros [b H]. exists (c, b). split; [done|]. by apply elem_of_map_to_list.
Qed.

Lemma range_order_length (m : gmap positive bool) (order : list Conn) :
  range_order m order → length order = size m.
Proof.
  intros [Hnd Hin]. rewrite <- size_dom, <- (size_list_to_set (C := gset positive)) by done.
  f_equal. apply set_eq. intros c.
  by rewrite elem_of_list_to_set, elem_of_dom.
Qed.

Lemma range_order_intro (m : gmap positive bool) (order : list Conn) :
  NoDup order → list_to_set order = dom m → range_order m order.
Proof.
  intros Hnd Hdom. split; [done|]. intros c.
  by rewrite <- elem_of_dom, <- Hdom, elem_of_list_to_set.
Qed.

Lemma new_events_app (w w' : World) (evs : list Event) :
  trace w' = trace w ++ evs → new_events w w' = evs.
Proof. intros H. unfold new_events. rewrite H. by rewrite drop_app_length. Qed.

Lemma delivered_app (c : Conn) (l1 l2 : list Event) :
  delivered c (l1 ++ l2) = delivered c l1 ++ delivered c l2.
Proof. apply omap_app. Qed.

Lemma delivered_send_events (w : World) (m : Msg) (c c' : Conn) :
  delivered c (send_events w m c')
  = if decide (c' = c ∧ writable w c = true) then [m] else [].
Proof.
  unfold send_events, delivered.
  destruct (decide (c' = c)) as [->|Hne].
  - destruct (writable w c) eqn:E; simpl.
    + destruct (decide (c = c)); [|done].
      destruct (decide (c = c ∧ true = true)) as [|n]; [done|]. by destruct n.
    + by destruct (decide (c = c ∧ false = true)) as [[_ ?]|].
  - destruct (decide (c' = c ∧ writable w c = true)) as [[? _]|]; [done|].
    destruct (writable w c'); simpl; [|done]. by destruct (decide (c' = c)).
Qed.

(** What one loop over [order] delivers to [c]: the message, once, when [c]
    is in [order] and its write succeeds, and nothing otherwise. *)
Lemma delivered_loop (w : World) (m : Msg) (order : list Conn) (c : Conn) :
  NoDup order →
  delivered c (order ≫= send_events w m)
  = if decide (c ∈ order ∧ writable w c = true) then [m] else [].
Proof.
  induction 1 as [|x rest Hx Hnd IH].
  - rewrite decide_False; [done|]. intros [H _]. by apply elem_of_nil in H.
  - rewrite bind_cons, delivered_app, IH, delivered_send_events.
    destruct (decide (x = c)) as [->|Hne].
    + destruct (writable w c) eqn:E.
      * rewrite decide_True by done.
        rewrite decide_False by (intros [? _]; contradiction).
        by rewrite decide_True by (split; [left|done]).
      * rewrite !decide_False; [done|..]; intros [_ ?]; congruence.
    + rewrite decide_False by (intros [? _]; done). simpl.
      destruct (decide (c ∈ rest ∧ writable w c = true)) as [[H1 H2]|Hn].
      * by rewrite decide_True by (split; [by right|done]).
      * rewrite decide_False; [done|]. intros [H1 H2]. apply Hn. split; [|done].
        apply elem_of_cons in H1 as [?|?]; [congruence|done].
Qed.

Lemma attempted_loop (w : World) (m : Msg) (order : list Conn) :
  attempted (order ≫= send_events w m) = order.
Proof.
  induction order as [|x rest IH]; [done|].
  unfold attempted in *. rewrite bind_cons, omap_app, IH.
  unfold send_events. by destruct (writable w x).
Qed.

Lemma deliveries_loop (w : World) (m : Msg) (order : list Conn) :
  length (filter (λ e, is_delivery e = true) (order ≫= send_events w m))
  = length (filter (λ c, writable w c = true) order).
Proof.
  induction order as [|x rest IH]; [done|].
  rewrite bind_cons, filter_app, length_app, IH, filter_cons.
  unfold send_events at 1. destruct (writable w x) eqn:E.
  - rewrite decide_True by done. done.
  - rewrite decide_False by congruence. done.
Qed.

Lemma loop_no_exec (w : World) (m : Msg) (order : list Conn) :
  filter (λ e, is_exec e = true) (order ≫= send_events w m) = []
  ∧ filter (λ e, is_broadcast e = true) (order ≫= send_events w m) = [].
Proof.
  induction order as [|x rest [IH1 IH2]]; [done|].
  rewrite bind_cons, !filter_app, IH1, IH2.
  unfold send_events. by destruct (writable w x).
Qed.

Lemma failing_clients_order (w : World) (order : list Conn) :
  range_order (clients w) order →
  failing_clients w = list_to_set (filter (λ c, writable w c = false) order).
Proof.
  intros [Hnd Hin]. apply set_eq. intros c. unfold failing_clients.
  rewrite elem_of_filter, elem_of_list_to_set, list_elem_of_filter, elem_of_dom, Hin.
  tauto.
Qed.

Lemma filter_split_length {A : Type} (f : A → bool) (l : list A) :
  (length (filter (λ x, f x = true) l) + length (filter (λ x, f x = false) l))%nat
  = length l.
Proof.
  induction l as [|x l IH]; [done|]. rewrite !filter_cons.
  destruct (f x); simpl; lia.
Qed.

(** ** The broadcast loop *)

Lemma broadcast_effect (order : list Conn) (task : Task) (w : World) :
  range_order (clients w) order →
  let w' := broadcastTaskUpdate order task w in
  (∀ c, clients w' !! c
        = if decide (c ∈ order ∧ writable w c = false) then None else clients w !! c)
  ∧ (∀ c, conns w' !! c
        = if decide (c ∈ order ∧ writable w c = false)
          then close_conn <$> conns w !! c else conns w !! c)
  ∧ trace w' = trace w ++ EvBroadcast task :: (order ≫= send_events w (MsgJSON task))
  ∧ db_tasks w' = db_tasks w
  ∧ db_next_id w' = db_next_id w.
Proof.
  intros [Hnd Hin]. unfold broadcastTaskUpdate.
  destruct (range_send (MsgJSON task) order (log (EvBroadcast task) w) Hnd)
    as (Hcl & Hco & Htr & Hdb & Hid).
  { intros c Hc. simpl. by apply Hin. }
  repeat split; try done.
  rewrite Htr. simpl. by rewrite <- app_assoc.
Qed.

Lemma broadcast_dom (order : list Conn) (task : Task) (w : World) :
  range_order (clients w) order →
  dom (clients (broadcastTaskUpdate order task w)) = dom (clients w) ∖ failing_clients w.
Proof.
  intros Hro. destruct (broadcast_effect order task w Hro) as (Hcl & _).
  apply set_eq. intros c. unfold failing_clients.
  rewrite elem_of_difference, elem_of_filter, !elem_of_dom, Hcl.
  pose proof (range_order_registered _ _ c Hro) as Hc.
  case_decide as H.
  - split; [by intros ?%is_Some_None|]. intros [_ Hn]. destruct Hn, H.
    split; [done|]. by apply Hc.
  - split; [|tauto]. intros Hs. split; [done|]. intros [? ?]. apply H.
    split; [by apply Hc|done].
Qed.

(** ** Decoding a body *)

Lemma decode_field_None {A : Type} (zero : A) (f : Field A) :
  decode_field zero f = None ↔ f = Mistyped.
Proof. by destruct f. Qed.

Lemma decode_int_None (f : Field Z) :
  decode_int f = None ↔ f = Mistyped ∨ ∃ n, f = Value n ∧ fits_int n = false.
Proof.
  unfold decode_int. destruct f as [| |n|]; simpl.
  - split; [done|]. intros [?|(n & ? & _)]; done.
  - split; [done|]. intros [?|(n & ? & _)]; done.
  - destruct (fits_int n) eqn:E.
    + split; [done|]. intros [?|(n' & [= <-] & ?)]; [done|congruence].
    + split; [|done]. intros _. right. by exists n.
  - split; [by left|done].
Qed.

Lemma BodyParser_None (b : Body) : BodyParser b = None ↔ undecodable b.
Proof.
  destruct b as [|[fid ft fa fs fc]]; simpl; [done|].
  destruct (decode_int fid) eqn:Eid; simpl.
  - assert (Hid : ¬ (fid = Mistyped ∨ ∃ n, fid = Value n ∧ fits_int n = false))
      by (rewrite <- decode_int_None; congruence).
    destruct ft, fa, fs, fc; simpl;
      (split; [intros H; try done; auto 10
              |intros H; repeat (destruct H as [H|H]; try done); destruct Hid; tauto]).
  - apply decode_int_None in Eid. split; [intros _; tauto|done].
Qed.

Lemma decode_field_Some {A : Type} (zero : A) (f : Field A) (a : A) :
  decode_field zero f = Some a → a = field_or zero f.
Proof. destruct f; simpl; congruence. Qed.


(** ** The two task handlers *)

(** The path of [createTask] on which the body decodes and the INSERT
    succeeds (lines 160-170). *)
Lemma createTask_ok (now : Time) (order : list Conn) (b : Body) (w : World) (task : Task) :
  BodyParser b = Some task →
  range_order (clients w) order →
  let r := (createTask now true order b w).1 in
  let w' := (createTask now true order b w).2 in
  r = mkResponse 200 (JMap "message" "Task created successfully")
  ∧ db_tasks w'
    = db_tasks w ++ [mkTask (db_next_id w) (Title task) (Assigned task) (Status task) now]
  ∧ new_events w w'
    = EvExec (Title task) (Assigned task) (Status task) now true
      :: EvBroadcast task :: (order ≫= send_events w (MsgJSON task))
  ∧ (∀ c, clients w' !! c
          = if decide (c ∈ order ∧ writable w c = false) then None else clients w !! c).
Proof.
  intros Hb Hro. unfold createTask. rewrite Hb. simpl.
  set (w1 := mkWorld _ _ _ _ _).
  destruct (broadcast_effect order task w1 Hro) as (Hcl & _ & Htr & Hdb & _).
  repeat split; try done.
  apply new_events_app. rewrite Htr. subst w1. simpl. by rewrite <- app_assoc.
Qed.

Lemma createTask_status (now : Time) (db_ok : bool) (order : list Conn) (b : Body)
    (w : World) :
  status (createTask now db_ok order b w).1 ∈ [200; 400; 500].
Proof.
  unfold createTask. destruct (BodyParser b); [|set_solver].
  destruct db_ok; simpl; set_solver.
Qed.

Lemma getTasks_status (q : QueryResult) (w : World) :
  status (getTasks q w).1 ∈ [200; 500].
Proof.
  unfold getTasks. destruct q; [set_solver|].
  destruct (Nat.eqb _ _); set_solver.
Qed.

(** ** Sequences of calls on the registry *)

Lemma dom_apply_ops (ops : list RegistryOp) (m : gmap positive bool) (s : gset positive) :
  dom m = s → dom (foldl apply_op m ops) = foldl spec_op s ops.
Proof.
  revert m s. induction ops as [|op ops IH]; intros m s Hm; [done|].
  simpl. apply IH. destruct op as [c|c]; simpl; unfold register, unregister.
  - by rewrite dom_insert_L, Hm.
  - by rewrite dom_delete_L, Hm.
Qed.

Lemma dom_run_ops (ops : list RegistryOp) : dom (run_ops ops) = registered_handles ops.
Proof. apply dom_apply_ops, dom_empty_L. Qed.

Lemma register_twice (c : Conn) (m : gmap positive bool) :
  register c (register c m) = register c m.
Proof. unfold register. apply insert_insert_eq. Qed.

(** ** The read loop of a connection *)

Lemma writable_not_closed (w : World) (c : Conn) :
  writable w c = true → is_closed w c = false.
Proof.
  unfold writable, is_closed. destruct (conns w !! c) as [st|]; [|done].
  by intros [_ ?%negb_true_iff]%andb_true_iff.
Qed.

(** While the write to the sender succeeds, the sender stays registered and
    its loop goes on: every frame it sends comes back to it, in the order
    of sending, and the store is not involved. *)
Lemma ws_loop_echo (c : Conn) (inputs : list (list Conn * Z * string)) (w : World) :
  is_Some (clients w !! c) →
  writable w c = true →
  orders_fit inputs w →
  ∃ evs, trace (ws_loop c inputs w) = trace w ++ evs
         ∧ delivered c evs = frame_of <$> inputs
         ∧ filter (λ e, is_exec e = true) evs = []
         ∧ db_tasks (ws_loop c inputs w) = db_tasks w
         ∧ is_Some (clients (ws_loop c inputs w) !! c).
Proof.
  revert w. induction inputs as [|[[order messageType] msg] rest IH]; intros w Hc Hw Hfit.
  - exists []. simpl. by rewrite app_nil_r.
  - destruct Hfit as [Hro Hfit]. simpl.
    set (m := MsgRaw messageType msg).
    pose proof (range_order_NoDup _ _ Hro) as Hnd.
    assert (Hin : ∀ c', c' ∈ order → is_Some (clients w !! c'))
      by (intros c' Hc'; by apply (range_order_registered _ _ c' Hro)).
    pose proof (range_send m order w Hnd Hin) as H. cbv zeta in H.
    unfold ws_on_message in *. fold m in Hfit |- *.
    set (w1 := range_clients order (send_or_drop m) w) in *.
    destruct H as (Hcl & Hco & Htr & Hdb & _).
    assert (Hno : ¬ (c ∈ order ∧ writable w c = false)) by (intros [_ ?]; congruence).
    assert (Hc1 : is_Some (clients w1 !! c)) by (by rewrite Hcl, decide_False).
    assert (Hw1 : writable w1 c = true).
    { unfold writable. rewrite Hco, decide_False by done. exact Hw. }
    destruct (IH w1 Hc1 Hw1 Hfit) as (evs & Htr' & Hdel & Hex & Hdb' & Hc').
    exists ((order ≫= send_events w m) ++ evs).
    repeat split.
    + by rewrite Htr', Htr, <- app_assoc.
    + rewrite delivered_app, Hdel, (delivered_loop _ _ _ _ Hnd).
      rewrite decide_True; [done|]. split; [|done].
      by apply (range_order_registered _ _ c Hro).
    + rewrite filter_app, Hex. by destruct (loop_no_exec w m order) as [-> _].
    + by rewrite Hdb', Hdb.
    + done.
Qed.

(** The whole life of a connection whose transport holds: every frame the
    client sends is written back to it, the table is as before, and at the
    end the handle is out of the registry. *)
Lemma ws_handler_echoes_every_frame
    (c : Conn) (inputs : list (list Conn * Z * string)) (w : World) :
  writable w c = true →
  orders_fit inputs (ws_register c w) →
  let w' := ws_handler c inputs w in
  delivered c (new_events w w') = frame_of <$> inputs
  ∧ db_tasks w' = db_tasks w
  ∧ clients w' !! c = None.
Proof.
  intros Hw Hfit w'. subst w'. unfold ws_handler.
  destruct (ws_loop_echo c inputs (ws_register c w)) as (evs & Htr & Hdel & _ & Hdb & _);
    [|done|done|].
  { simpl. unfold register. rewrite lookup_insert_eq. by eexists. }
  repeat split.
  - rewrite (new_events_app _ _ (evs ++ [EvClose c])).
    + rewrite delivered_app, Hdel. simpl. by rewrite app_nil_r.
    + unfold ws_deferred. simpl. rewrite Htr. simpl. by rewrite <- app_assoc.
  - unfold ws_deferred. simpl. exact Hdb.
  - unfold ws_deferred. simpl. unfold unregister. apply lookup_delete_eq.
Qed.


(** ** The sample states are well formed *)

Lemma one_subscriber_order : range_order (clients one_subscriber) [1%positive].
Proof. apply range_order_intro; [by apply NoDup_singleton|]. by vm_compute. Defined.

Lemma three_subscribers_order :
  range_order (clients three_subscribers) [2%positive; 3%positive; 1%positive].
Proof.
  apply range_order_intro; [|by vm_compute].
  apply (bool_decide_unpack _). by vm_compute.
Defined.

Lemma lobby_order : range_order (clients (ws_register 2%positive lobby)) [2%positive; 1%positive].
Proof.
  apply range_order_intro; [|by vm_compute].
  apply (bool_decide_unpack _). by vm_compute.
Defined.

(** ** Properties of the pipeline *)




(** C2, as the code has it. [createTask] answers 400 exactly for the bodies
    that [c.BodyParser] cannot decode: those that are no JSON object or hold
    a value of the wrong type under one of the keys of Task. For these the
    answer comes at once and the state is left as it was, so that nothing is
    written to the store and nothing is broadcast. *)
Theorem createTask_undecodable_body
    (now : Time) (db_ok : bool) (order : list Conn) (b : Body) (w : World) :
  (undecodable b →
   createTask now db_ok order b w = (mkResponse 400 (JMap "error" "Invalid request"), w))
  ∧ (status (createTask now db_ok order b w).1 = 400 → undecodable b).
Proof.
  split.
  - intros H%BodyParser_None. unfold createTask. by rewrite H.
  - intros H. apply BodyParser_None. unfold createTask in H.
    destruct (BodyParser b); [|done]. by destruct db_ok.
Qed.

Lemma createTask_undecodable_body_witness :
  undecodable Malformed
  ∧ createTask 1000 true [1%positive] Malformed one_subscriber
    = (mkResponse 400 (JMap "error" "Invalid request"), one_subscriber).
Proof.
  split; [exact I|].
  exact (proj1 (createTask_undecodable_body 1000 true [1%positive] Malformed
                  one_subscriber) I).
Defined.

(** C2, as the specification has it, fails: a body without a title is
    written to the store with the empty title and is broadcast. *)
Lemma createTask_accepts_missing_title :
  shape_invalid body_no_title
  ∧ (createTask 1000 true [1%positive] body_no_title one_subscriber).1
    = mkResponse 200 (JMap "message" "Task created successfully")
  ∧ new_events one_subscriber
      (createTask 1000 true [1%positive] body_no_title one_subscriber).2
    = [EvExec "" "alice" "open" 1000 true;
       EvBroadcast (mkTask 0 "" "alice" "open" 0);
       EvWrite 1%positive (MsgJSON (mkTask 0 "" "alice" "open" 0)) true].
Proof. split; [by left|]. split; by vm_compute. Qed.

(** C3. A broadcast over a registry of N handles of which K have a failing
    transport delivers the event once to each of the N-K others, whatever
    the order of the loop and wherever the failures fall in it (every handle
    of the order is tried), removes exactly the K failing handles, and has
    no error to give: the function has no result, and [createTask] answers
    200 after it. *)
Theorem broadcast_partial_failure (order : list Conn) (task : Task) (w : World) :
  range_order (clients w) order →
  let w' := broadcastTaskUpdate order task w in
  let N := size (clients w) in
  let K := size (failing_clients w) in
  (∀ c, is_Some (clients w !! c) → writable w c = true →
        delivered c (new_events w w') = [MsgJSON task]
        ∧ clients w' !! c = clients w !! c)
  ∧ (∀ c, c ∈ failing_clients w →
        delivered c (new_events w w') = [] ∧ clients w' !! c = None)
  ∧ attempted (new_events w w') = order
  ∧ length (filter (λ e, is_delivery e = true) (new_events w w')) = (N - K)%nat
  ∧ dom (clients w) ∖ dom (clients w') = failing_clients w
  ∧ size (clients w') = (N - K)%nat
  ∧ (∀ now b, BodyParser b = Some task →
        (createTask now true order b w).1
        = mkResponse 200 (JMap "message" "Task created successfully")).
Proof.
  intros Hro w' N K.
  destruct (broadcast_effect order task w Hro) as (Hcl & _ & Hev & _).
  apply new_events_app in Hev. fold w' in Hcl, Hev.
  pose proof (range_order_NoDup _ _ Hro) as Hnd.
  assert (Hsub : failing_clients w ⊆ dom (clients w)).
  { unfold failing_clients. intros c Hc. by apply elem_of_filter in Hc as [_ ?]. }
  assert (Hdom : dom (clients w') = dom (clients w) ∖ failing_clients w)
    by (by apply broadcast_dom).
  repeat split.
  - rewrite Hev. simpl. rewrite (delivered_loop _ _ _ _ Hnd).
    rewrite decide_True; [done|]. split; [|done].
    by apply (range_order_registered _ _ c Hro).
  - rewrite Hcl. rewrite decide_False; [done|]. intros [_ ?]. congruence.
  - rewrite Hev. simpl. rewrite (delivered_loop _ _ _ _ Hnd).
    apply elem_of_filter in H as [Hf _].
    rewrite decide_False; [done|]. intros [_ ?]. congruence.
  - rewrite Hcl. apply elem_of_filter in H as [Hf Hd].
    rewrite decide_True; [done|]. split; [|done].
    apply (range_order_registered _ _ c Hro). by apply elem_of_dom.
  - rewrite Hev. apply (attempted_loop w (MsgJSON task) order).
  - rewrite Hev. rewrite filter_cons. simpl.
    rewrite deliveries_loop.
    subst N K. rewrite <- (range_order_length _ _ Hro).
    rewrite (failing_clients_order _ _ Hro).
    rewrite size_list_to_set by (by apply NoDup_filter).
    pose proof (filter_split_length (writable w) order). lia.
  - rewrite Hdom. apply set_eq. intros c.
    rewrite !elem_of_difference.
    split; [|by intros H; split; [apply Hsub|intros [_ ?]]].
    intros [H1 H2]. destruct (decide (c ∈ failing_clients w)); [done|]. by destruct H2.
  - rewrite <- (size_dom (clients w')), Hdom.
    rewrite size_difference by done. subst N K. by rewrite size_dom.
  - intros now b Hb. unfold createTask. rewrite Hb. reflexivity.
Qed.

Lemma broadcast_partial_failure_witness :
  range_order (clients three_subscribers) [2%positive; 3%positive; 1%positive]
  ∧ delivered 3%positive
      (new_events three_subscribers
         (broadcastTaskUpdate [2%positive; 3%positive; 1%positive] task_X three_subscribers))
    = [MsgJSON task_X]
  ∧ clients (broadcastTaskUpdate [2%positive; 3%positive; 1%positive] task_X three_subscribers)
      !! 2%positive = None.
Proof.
  pose proof (broadcast_partial_failure [2%positive; 3%positive; 1%positive] task_X
                three_subscribers three_subscribers_order) as (Hok & Hfail & _).
  split; [exact three_subscribers_order|]. split.
  - apply Hok; [by eexists|reflexivity].
  - apply Hfail. apply elem_of_filter. split; [reflexivity|].
    apply elem_of_dom. by eexists.
Defined.

(** C4. When the store write fails, [createTask] answers 500, the INSERT
    has been tried exactly once, [broadcastTaskUpdate] is not entered, no
    connection is written to and the registry, the connections and the
    table are as before. When the write succeeds, the log of the call starts
    with the INSERT and continues with the broadcast. *)
Theorem createTask_store_failure
    (now : Time) (order : list Conn) (b : Body) (w : World) (task : Task) :
  BodyParser b = Some task →
  range_order (clients w) order →
  let r := (createTask now false order b w).1 in
  let w' := (createTask now false order b w).2 in
  r = mkResponse 500 (JMap "error" "Failed to create task")
  ∧ new_events w w' = [EvExec (Title task) (Assigned task) (Status task) now false]
  ∧ clients w' = clients w
  ∧ conns w' = conns w
  ∧ db_tasks w' = db_tasks w
  ∧ (∀ c, delivered c (new_events w w') = [])
  ∧ ∃ rest,
      new_events w (createTask now true order b w).2
      = EvExec (Title task) (Assigned task) (Status task) now true
        :: EvBroadcast task :: rest
      ∧ filter (λ e, is_exec e = true) rest = [].
Proof.
  intros Hb Hro r w'.
  assert (Hfail : createTask now false order b w
                  = (mkResponse 500 (JMap "error" "Failed to create task"),
                     log (EvExec (Title task) (Assigned task) (Status task) now false) w)).
  { unfold createTask. by rewrite Hb. }
  assert (Hev : new_events w w'
                = [EvExec (Title task) (Assigned task) (Status task) now false]).
  { subst w'. rewrite Hfail. by apply new_events_app. }
  subst r w'. rewrite Hev, Hfail.
  repeat split; try done.
  destruct (createTask_ok now order b w task Hb Hro) as (_ & _ & Hok & _).
  eexists. split; [exact Hok|]. by destruct (loop_no_exec w (MsgJSON task) order) as [-> _].
Qed.

Lemma createTask_store_failure_witness :
  BodyParser body_X = Some task_X
  ∧ range_order (clients one_subscriber) [1%positive]
  ∧ (createTask 1000 false [1%positive] body_X one_subscriber).1
    = mkResponse 500 (JMap "error" "Failed to create task")
  ∧ delivered 1%positive
      (new_events one_subscriber (createTask 1000 false [1%positive] body_X one_subscriber).2)
    = [].
Proof.
  pose proof (createTask_store_failure 1000 [1%positive] body_X
                one_subscriber task_X eq_refl one_subscriber_order)
    as (Hr & _ & _ & _ & _ & Hd & _).
  split; [reflexivity|]. split; [exact one_subscriber_order|].
  split; [exact Hr|apply Hd].
Defined.

(** ** Properties of the registry *)

(** C6. After any sequence of register and unregister calls, the handles a
    broadcast goes through are exactly the handles currently registered,
    each of them once; the broadcast delivers to a handle at most once, and
    registering a handle a second time changes nothing. *)
Theorem snapshot_is_registered_set
    (ops : list RegistryOp) (order : list Conn) (task : Task) (w : World) :
  clients w = run_ops ops →
  range_order (clients w) order →
  let visited := attempted (new_events w (broadcastTaskUpdate order task w)) in
  NoDup visited
  ∧ visited ≡ₚ elements (registered_handles ops)
  ∧ (∀ c, c ∈ visited ↔ c ∈ registered_handles ops)
  ∧ (∀ c, delivered c (new_events w (broadcastTaskUpdate order task w))
          = if decide (c ∈ registered_handles ops ∧ writable w c = true)
            then [MsgJSON task] else [])
  ∧ (∀ c, run_ops (ops ++ [OpRegister c; OpRegister c]) = run_ops (ops ++ [OpRegister c])).
Proof.
  intros Hw Hro visited. pose proof (range_order_NoDup _ _ Hro) as Hnd.
  destruct (broadcast_effect order task w Hro) as (_ & _ & Hev & _).
  apply new_events_app in Hev.
  assert (Hvis : visited = order).
  { subst visited. rewrite Hev. apply (attempted_loop w (MsgJSON task) order). }
  assert (Hin : ∀ c, c ∈ order ↔ c ∈ registered_handles ops).
  { intros c. rewrite (range_order_registered _ _ c Hro), <- elem_of_dom, Hw.
    by rewrite dom_run_ops. }
  rewrite Hvis. repeat split; try done; try apply Hin.
  - apply NoDup_Permutation; [done|apply NoDup_elements|].
    intros c. by rewrite elem_of_elements.
  - intros c. rewrite Hev. simpl.
    rewrite (delivered_loop _ _ _ _ Hnd).
    destruct (decide (c ∈ order ∧ writable w c = true)) as [[H1 H2]|Hn].
    + rewrite decide_True; [done|]. split; [by apply Hin|done].
    + rewrite decide_False; [done|]. intros [H1 H2]. apply Hn. split; [by apply Hin|done].
  - intros c. unfold run_ops. rewrite !foldl_app. simpl. apply register_twice.
Qed.

Lemma snapshot_is_registered_set_witness :
  clients one_subscriber
  = run_ops [OpRegister 1%positive; OpRegister 2%positive;
             OpRegister 1%positive; OpUnregister 2%positive]
  ∧ range_order (clients one_subscriber) [1%positive]
  ∧ delivered 1%positive
      (new_events one_subscriber (broadcastTaskUpdate [1%positive] task_X one_subscriber))
    = [MsgJSON task_X].
Proof.
  assert (H : clients one_subscriber
              = run_ops [OpRegister 1%positive; OpRegister 2%positive;
                         OpRegister 1%positive; OpUnregister 2%positive])
    by (by vm_compute).
  split; [exact H|]. split; [exact one_subscriber_order|].
  pose proof (snapshot_is_registered_set _ [1%positive] task_X one_subscriber
                H one_subscriber_order) as (_ & _ & _ & Hd & _).
  rewrite Hd. reflexivity.
Defined.

(** C7. Unregistering is idempotent, and unregistering a handle that is not
    in the registry leaves the registry as it is; so does the deferred
    function of the WebSocket handler when the broadcast loop has already
    dropped the connection. *)
Theorem unregister_idempotent (c : Conn) (w : World) :
  unregister c (unregister c (clients w)) = unregister c (clients w)
  ∧ clients (ws_deferred c (ws_deferred c w)) = clients (ws_deferred c w)
  ∧ (clients w !! c = None →
     unregister c (clients w) = clients w ∧ clients (ws_deferred c w) = clients w).
Proof.
  unfold ws_deferred. simpl. unfold unregister.
  split; [by rewrite delete_delete_eq|]. split; [by rewrite delete_delete_eq|].
  intros Hc. by rewrite delete_id.
Qed.

Lemma unregister_idempotent_witness :
  clients one_subscriber !! 5%positive = None
  ∧ unregister 5%positive (clients one_subscriber) = clients one_subscriber
  ∧ clients (ws_deferred 5%positive one_subscriber) = clients one_subscriber.
Proof.
  pose proof (unregister_idempotent 5%positive one_subscriber) as (_ & _ & H).
  split; [reflexivity|]. exact (H eq_refl).
Defined.

(** ** Properties of the endpoints *)

(** The credential plays no part in serving a request: neither the
    middleware nor the handlers of the task routes and of [/ws] look at the
    Authorization header, so that the answer and the state a request leaves
    are the same whatever the header holds, and no answer is 401. *)
Lemma app_ignores_credential (env : Env) (req : Request) (a : option string) (w : World) :
  app env (with_authorization a req) w = app env req w
  ∧ match app env req w with
    | Some (rep, _) => unauthorized rep = false
    | None => True
    end.
Proof.
  split; [reflexivity|].
  unfold app, middleware, run_middleware, cors, logger.
  destruct (decide (method req = OPTIONS)); [destruct (preflight req); [done|]|];
    (destruct (find_route routes (method req) (path req)) as [[]|];
      [by destruct (upgrade req && bool_decide (method req = GET))
      |done|done| | |done|by destruct (methodExist routes (path req))]).
  all: try (pose proof (createTask_status (now env) (db_ok env) (order env)
                          (req_body req) w) as H;
            destruct (createTask _ _ _ _ _) as [r w1]; simpl in *;
            rewrite !elem_of_cons in H; destruct H as [->| [->| [->|H]]]; try done;
            by apply elem_of_nil in H).
  all: pose proof (getTasks_status (query env) w) as H;
    destruct (getTasks _ _) as [r w1]; simpl in *;
    rewrite !elem_of_cons in H; destruct H as [->| [->|H]]; try done;
    by apply elem_of_nil in H.
Qed.

(** C8. The program breaks the claim: no request is checked for a bearer
    credential. A task-write request without an Authorization header, and
    the same request with a header that holds no valid token, are both
    served with 200, and the row is stored; so are the requests for
    [/task/] and [/TASK], which Fiber routes to the same handler. *)
Theorem task_write_without_credential :
  let served := ReplyJSON (mkResponse 200 (JMap "message" "Task created successfully")) in
  let stored := [mkTask 7 "X" "alice" "open" 1000] in
  let outcome := λ req, (λ x : Reply * World, (x.1, db_tasks x.2))
                          <$> app demo_env req one_subscriber in
  outcome (mkRequest POST "/task" None false false body_X) = Some (served, stored)
  ∧ outcome (mkRequest POST "/task" (Some "Bearer not-a-token") false false body_X)
    = Some (served, stored)
  ∧ outcome (mkRequest POST "/task/" None false false body_X) = Some (served, stored)
  ∧ outcome (mkRequest POST "/TASK" None false false body_X) = Some (served, stored).
Proof. repeat split; by vm_compute. Qed.

(** How requests are routed: a request for a path under another method is
    answered 405, an OPTIONS request that is no preflight among them, a
    preflight 204, an unknown path 404, and a request for [/ws] that is no
    handshake 426. *)
Example routing_samples :
  let reply := λ req, fst <$> app demo_env req one_subscriber in
  reply (mkRequest OPTIONS "/task" None false false Malformed) = Some (ReplyStatus 405)
  ∧ reply (mkRequest OPTIONS "/task" None true false Malformed) = Some (ReplyStatus 204)
  ∧ reply (mkRequest GET "/task" None false false Malformed) = Some (ReplyStatus 405)
  ∧ reply (mkRequest GET "/nowhere" None false false Malformed) = Some (ReplyStatus 404)
  ∧ reply (mkRequest GET "/ws" None false false Malformed) = Some (ReplyStatus 426)
  ∧ reply (mkRequest GET "/ws" None false true Malformed) = Some (ReplySwitch 2%positive)
  ∧ detectionPath "/Task/Suggest//" = "/task/suggest"
  ∧ detectionPath "/" = "/".
Proof. repeat split; by vm_compute. Qed.

(** C9. When the query succeeds and yields no row, [getTasks] answers 200
    with the empty array; and whatever the rows, a successful answer is never
    [null]. *)
Theorem getTasks_empty_array (w : World) :
  getTasks (QueryRows []) w = (mkResponse 200 (JArray []), log (EvQuery true) w)
  ∧ ∀ scans, status (getTasks (QueryRows scans) w).1 = 200
             ∧ body (getTasks (QueryRows scans) w).1 ≠ JNull.
Proof.
  split; [reflexivity|]. intros scans. unfold getTasks.
  destruct (Nat.eqb (len (collect_tasks scans)) 0) eqn:E; simpl; [done|].
  split; [done|]. by destruct (collect_tasks scans).
Qed.

(** One turn of the read loop. A frame read from a registered client is
    written, as it is, to every registered client, the sender among them; it
    reaches each of them whose write succeeds, exactly once. The store takes
    no part. The sender stays registered unless the write to it failed, in
    which case its connection is closed. *)
Lemma ws_message_fanout
    (order : list Conn) (c : Conn) (messageType : Z) (msg : string) (w : World) :
  range_order (clients w) order →
  is_Some (clients w !! c) →
  let w' := ws_on_message order messageType msg w in
  let m := MsgRaw messageType msg in
  (∀ c', is_Some (clients w !! c') → EvWrite c' m (writable w c') ∈ new_events w w')
  ∧ (∀ c', is_Some (clients w !! c') → writable w c' = true →
           delivered c' (new_events w w') = [m])
  ∧ EvWrite c m (writable w c) ∈ new_events w w'
  ∧ (writable w c = true → delivered c (new_events w w') = [m])
  ∧ db_tasks w' = db_tasks w
  ∧ db_next_id w' = db_next_id w
  ∧ filter (λ e, is_exec e = true) (new_events w w') = []
  ∧ (is_Some (clients w' !! c) ∨ is_closed w' c = true).
Proof.
  intros Hro Hc w' m. subst w'. unfold ws_on_message. fold m.
  pose proof (range_order_NoDup _ _ Hro) as Hnd.
  assert (Hin : ∀ c', c' ∈ order → is_Some (clients w !! c'))
    by (intros c' Hc'; by apply (range_order_registered _ _ c' Hro)).
  pose proof (range_send m order w Hnd Hin) as H. cbv zeta in H.
  set (w' := range_clients order (send_or_drop m) w) in *.
  destruct H as (Hcl & Hco & Htr & Hdb & Hid).
  apply new_events_app in Htr.
  assert (Hwrite : ∀ c', is_Some (clients w !! c') →
                         EvWrite c' m (writable w c') ∈ new_events w w').
  { intros c' Hc'. rewrite Htr. apply list_elem_of_bind. exists c'.
    split; [|by apply (range_order_registered _ _ c' Hro)].
    unfold send_events. destruct (writable w c'); left. }
  assert (Hdel : ∀ c', is_Some (clients w !! c') → writable w c' = true →
                       delivered c' (new_events w w') = [m]).
  { intros c' Hc' Hw. rewrite Htr, (delivered_loop _ _ _ _ Hnd).
    rewrite decide_True; [done|]. split; [|done].
    by apply (range_order_registered _ _ c' Hro). }
  repeat split; try done.
  - by apply Hwrite.
  - by apply Hdel.
  - rewrite Htr. by destruct (loop_no_exec w m order) as [-> _].
  - destruct (writable w c) eqn:E.
    + left. rewrite Hcl. rewrite decide_False; [done|]. intros [_ ?]. congruence.
    + right. unfold is_closed. rewrite Hco.
      rewrite decide_True by (split; [by apply (range_order_registered _ _ c Hro)|done]).
      by destruct (conns w !! c).
Qed.

Lemma ws_message_fanout_witness :
  range_order (clients (ws_register 2%positive lobby)) [2%positive; 1%positive]
  ∧ is_Some (clients (ws_register 2%positive lobby) !! 2%positive)
  ∧ delivered 2%positive
      (new_events (ws_register 2%positive lobby)
         (ws_on_message [2%positive; 1%positive] 1 "hello" (ws_register 2%positive lobby)))
    = [MsgRaw 1 "hello"]
  ∧ db_tasks (ws_on_message [2%positive; 1%positive] 1 "hello" (ws_register 2%positive lobby))
    = [].
Proof.
  assert (Hc : is_Some (clients (ws_register 2%positive lobby) !! 2%positive))
    by (by eexists).
  pose proof (ws_message_fanout [2%positive; 1%positive] 2%positive 1 "hello"
                (ws_register 2%positive lobby) lobby_order Hc)
    as (_ & _ & _ & Hd & Hdb & _).
  split; [exact lobby_order|]. split; [exact Hc|].
  split; [by apply Hd|exact Hdb].
Defined.

(** The same through the whole handler: a client connects, sends one frame
    and leaves; the frame has reached the client itself and the other
    subscriber, and the table is untouched. *)
Example ws_handler_echo :
  let w' := ws_handler 2%positive [([2%positive; 1%positive], 1, "hello")] lobby in
  delivered 2%positive (new_events lobby w') = [MsgRaw 1 "hello"]
  ∧ delivered 1%positive (new_events lobby w') = [MsgRaw 1 "hello"]
  ∧ db_tasks w' = []
  ∧ clients w' = clients lobby.
Proof. repeat split; by vm_compute. Qed.

(** ** What a loop over [clients] keeps, for any order *)

Lemma writable_conns (w w' : World) (c : Conn) :
  conns w' !! c = conns w !! c → writable w' c = writable w c.
Proof. unfold writable. by intros ->. Qed.

Lemma is_closed_conns (w w' : World) (c : Conn) :
  conns w' !! c = conns w !! c → is_closed w' c = is_closed w c.
Proof. unfold is_closed. by intros ->. Qed.

Lemma range_clients_cons (c : Conn) (rest : list Conn) (body : Conn → World → World)
    (w : World) :
  range_clients (c :: rest) body w
  = range_clients rest body (if decide (is_Some (clients w !! c)) then body c w else w).
Proof. reflexivity. Qed.

Lemma prunes_refl (w : World) : prunes w w.
Proof. by split. Qed.

Lemma prunes_trans (w1 w2 w3 : World) : prunes w1 w2 → prunes w2 w3 → prunes w1 w3.
Proof.
  intros [Ha1 Ha2] [Hb1 Hb2]. split.
  - intros c Hc. destruct (Hb1 c Hc) as [Hcl Hco].
    rewrite Hcl in Hc. destruct (Ha1 c Hc) as [Hcl' Hco'].
    split; congruence.
  - intros c Hc Hw. destruct (Ha2 c Hc Hw) as [Hcl Hco].
    assert (Hc2 : is_Some (clients w2 !! c)) by (by rewrite Hcl).
    assert (Hw2 : writable w2 c = true) by (by rewrite (writable_conns _ _ _ Hco)).
    destruct (Hb2 c Hc2 Hw2) as [Hcl' Hco']. split; congruence.
Qed.

Lemma prunes_same (w w' : World) :
  clients w' = clients w → conns w' = conns w → prunes w w'.
Proof. intros Hcl Hco. split; intros c; rewrite Hcl, Hco; done. Qed.

Lemma send_or_drop_prunes (m : Msg) (c : Conn) (w : World) :
  prunes w (send_or_drop m c w).
Proof.
  split; intros c'; rewrite send_or_drop_clients, send_or_drop_conns;
    destruct (writable w c) eqn:E; try done.
  - intros Hc. destruct (decide (c' = c)) as [->|Hne].
    + rewrite lookup_delete_eq in Hc. by apply is_Some_None in Hc.
    + by rewrite lookup_delete_ne, lookup_alter_ne.
  - intros Hc Hw. assert (c' ≠ c) by congruence.
    by rewrite lookup_delete_ne, lookup_alter_ne.
Qed.

Lemma range_clients_prunes (m : Msg) (order : list Conn) (w : World) :
  prunes w (range_clients order (send_or_drop m) w).
Proof.
  revert w. induction order as [|c rest IH]; intros w; [apply prunes_refl|].
  rewrite range_clients_cons. case_decide.
  - eapply prunes_trans; [apply send_or_drop_prunes|apply IH].
  - apply IH.
Qed.

Lemma range_clients_db (m : Msg) (order : list Conn) (w : World) :
  db_tasks (range_clients order (send_or_drop m) w) = db_tasks w
  ∧ db_next_id (range_clients order (send_or_drop m) w) = db_next_id w.
Proof.
  revert w. induction order as [|c rest IH]; intros w; [done|].
  rewrite range_clients_cons. case_decide; [|apply IH].
  destruct (IH (send_or_drop m c w)) as [-> ->]. apply send_or_drop_db.
Qed.

Lemma broadcast_prunes (order : list Conn) (task : Task) (w : World) :
  prunes w (broadcastTaskUpdate order task w).
Proof.
  unfold broadcastTaskUpdate.
  eapply prunes_trans; [|apply range_clients_prunes]. by apply prunes_same.
Qed.

Lemma ws_loop_prunes (c : Conn) (inputs : list (list Conn * Z * string)) (w : World) :
  prunes w (ws_loop c inputs w).
Proof.
  revert w. induction inputs as [|[[order messageType] msg] rest IH]; intros w;
    [apply prunes_refl|].
  simpl.
  eapply prunes_trans; [apply range_clients_prunes|apply IH].
Qed.

Lemma ws_loop_db (c : Conn) (inputs : list (list Conn * Z * string)) (w : World) :
  db_tasks (ws_loop c inputs w) = db_tasks w.
Proof.
  revert w. induction inputs as [|[[order messageType] msg] rest IH]; intros w; [done|].
  simpl.
  rewrite IH. apply range_clients_db.
Qed.

Lemma createTask_prunes (now : Time) (db_ok : bool) (order : list Conn) (b : Body)
    (w : World) :
  prunes w (createTask now db_ok order b w).2.
Proof.
  unfold createTask. destruct (BodyParser b) as [task|]; [|apply prunes_refl].
  destruct db_ok; simpl; [|by apply prunes_same].
  eapply prunes_trans; [|apply broadcast_prunes]. by apply prunes_same.
Qed.

Lemma prunes_open (w w' : World) : prunes w w' → registry_open w → registry_open w'.
Proof.
  intros [H1 _] Hopen c Hc. destruct (H1 c Hc) as [Hcl Hco].
  rewrite (is_closed_conns _ _ _ Hco). apply Hopen. by rewrite <- Hcl.
Qed.

(** ** Invariants of the registry *)

(** X1. No handler leaves a closed connection in the registry: every
    [Close()] comes with the [delete] of the handle. This holds for any
    order of the loops, any frames and any request. *)
Theorem registry_stays_open
    (w : World) (c : Conn) (order : list Conn) (task : Task)
    (now : Time) (db_ok : bool) (b : Body) (q : QueryResult)
    (messageType : Z) (msg : string) (inputs : list (list Conn * Z * string)) :
  registry_open w →
  registry_open (broadcastTaskUpdate order task w)
  ∧ registry_open (createTask now db_ok order b w).2
  ∧ registry_open (getTasks q w).2
  ∧ registry_open (ws_on_message order messageType msg w)
  ∧ registry_open (ws_deferred c w)
  ∧ registry_open (ws_handler c inputs w)
  ∧ (is_closed w c = false → registry_open (ws_register c w)).
Proof.
  intros Hopen. repeat split.
  - apply (prunes_open w); [apply broadcast_prunes|done].
  - apply (prunes_open w); [apply createTask_prunes|done].
  - apply (prunes_open w); [|done]. apply prunes_same; unfold getTasks;
      destruct q; [done| |done|]; by destruct (Nat.eqb _ _).
  - apply (prunes_open w); [apply range_clients_prunes|done].
  - intros c' Hc'. unfold ws_deferred in *. simpl in *. unfold unregister in Hc'.
    destruct (decide (c' = c)) as [->|Hne].
    + rewrite lookup_delete_eq in Hc'. by apply is_Some_None in Hc'.
    + rewrite lookup_delete_ne in Hc' by done. unfold is_closed. simpl.
      rewrite lookup_alter_ne by done. by apply Hopen.
  - intros c' Hc'. unfold ws_handler, ws_deferred in *. simpl in *.
    unfold unregister in Hc'.
    destruct (decide (c' = c)) as [->|Hne].
    { rewrite lookup_delete_eq in Hc'. by apply is_Some_None in Hc'. }
    rewrite lookup_delete_ne in Hc' by done. unfold is_closed. simpl.
    rewrite lookup_alter_ne by done.
    destruct (ws_loop_prunes c inputs (ws_register c w)) as [H1 _].
    destruct (H1 c' Hc') as [Hcl Hco]. rewrite Hco. simpl.
    apply Hopen. rewrite Hcl in Hc'. simpl in Hc'. unfold register in Hc'.
    by rewrite lookup_insert_ne in Hc'.
  - intros Hc c' Hc'. unfold ws_register in *. simpl in *. unfold register in Hc'.
    destruct (decide (c' = c)) as [->|Hne]; [exact Hc|].
    rewrite lookup_insert_ne in Hc' by done. by apply Hopen.
Qed.

Lemma one_subscriber_open : registry_open one_subscriber.
Proof.
  intros c [v Hc]. simpl in Hc. apply lookup_singleton_Some in Hc as [<- _]. reflexivity.
Defined.

Lemma registry_stays_open_witness :
  registry_open one_subscriber
  ∧ registry_open (broadcastTaskUpdate [1%positive] task_X one_subscriber)
  ∧ registry_open (ws_handler 1%positive [([1%positive], 1, "hello")] one_subscriber).
Proof.
  pose proof (registry_stays_open one_subscriber 1%positive [1%positive] task_X 1000 true
                body_X (QueryRows []) 1 "hello" [([1%positive], 1, "hello")]
                one_subscriber_open) as (H1 & _ & _ & _ & _ & H2 & _).
  split; [exact one_subscriber_open|]. split; [exact H1|exact H2].
Defined.

(** X2. The handler of a connection, whatever frames it reads and whatever
    order its loops take, leaves every other client whose connection works
    registered and its connection untouched, takes its own handle out of
    the registry, and leaves the table as it was. *)
Theorem ws_handler_spares_working_clients
    (c c' : Conn) (inputs : list (list Conn * Z * string)) (w : World) :
  c' ≠ c →
  is_Some (clients w !! c') →
  writable w c' = true →
  let w' := ws_handler c inputs w in
  clients w' !! c' = clients w !! c'
  ∧ writable w' c' = true
  ∧ clients w' !! c = None
  ∧ db_tasks w' = db_tasks w.
Proof.
  intros Hne Hc Hw w'. subst w'. unfold ws_handler, ws_deferred. simpl. unfold unregister.
  destruct (ws_loop_prunes c inputs (ws_register c w)) as [_ H2].
  destruct (H2 c') as [Hcl Hco].
  { simpl. unfold register. by rewrite lookup_insert_ne. }
  { exact Hw. }
  repeat split.
  - rewrite lookup_delete_ne by done. rewrite Hcl. simpl. unfold register.
    by rewrite lookup_insert_ne.
  - unfold writable. simpl. rewrite lookup_alter_ne by done. rewrite Hco. exact Hw.
  - apply lookup_delete_eq.
  - apply (ws_loop_db c inputs (ws_register c w)).
Qed.

Lemma ws_handler_spares_working_clients_witness :
  1%positive ≠ 2%positive
  ∧ is_Some (clients lobby !! 1%positive)
  ∧ writable lobby 1%positive = true
  ∧ clients (ws_handler 2%positive [([2%positive; 1%positive], 1, "hello")] lobby)
      !! 1%positive = clients lobby !! 1%positive.
Proof.
  assert (H1 : 1%positive ≠ 2%positive) by done.
  assert (H2 : is_Some (clients lobby !! 1%positive)) by (by eexists).
  pose proof (ws_handler_spares_working_clients 2%positive 1%positive
                [([2%positive; 1%positive], 1, "hello")] lobby H1 H2 eq_refl) as (H & _).
  split; [exact H1|]. split; [exact H2|]. split; [reflexivity|exact H].
Defined.

(** ** Broadcasts one after the other *)

Lemma broadcast_all_trace (c : Conn) (jobs : list (list Conn * Task)) (w : World) :
  is_Some (clients w !! c) →
  writable w c = true →
  jobs_fit jobs w →
  ∃ evs, trace (broadcast_all jobs w) = trace w ++ evs
         ∧ delivered c evs = (λ j, MsgJSON j.2) <$> jobs
         ∧ is_Some (clients (broadcast_all jobs w) !! c)
         ∧ writable (broadcast_all jobs w) c = true.
Proof.
  revert w. induction jobs as [|[order task] rest IH]; intros w Hc Hw Hfit.
  - exists []. simpl. by rewrite app_nil_r.
  - destruct Hfit as [Hro Hfit]. simpl.
    destruct (broadcast_effect order task w Hro) as (_ & _ & Htr & _).
    destruct (broadcast_prunes order task w) as [_ H2].
    destruct (H2 c Hc Hw) as [Hcl Hco].
    set (w1 := broadcastTaskUpdate order task w) in *.
    assert (Hc1 : is_Some (clients w1 !! c)) by (by rewrite Hcl).
    assert (Hw1 : writable w1 c = true) by (by rewrite (writable_conns _ _ _ Hco)).
    destruct (IH w1 Hc1 Hw1 Hfit) as (evs & Htr' & Hdel & Hc' & Hw').
    exists ((EvBroadcast task :: (order ≫= send_events w (MsgJSON task))) ++ evs).
    repeat split; try done.
    + by rewrite Htr', Htr, <- app_assoc.
    + rewrite delivered_app, Hdel. simpl.
      rewrite (delivered_loop _ _ _ _ (range_order_NoDup _ _ Hro)).
      rewrite decide_True; [done|]. split; [|done].
      by apply (range_order_registered _ _ c Hro).
Qed.

(** X4. Broadcasts made one after the other reach a client whose
    connection works in the order they were made, each of them once, and
    leave it registered. *)
Theorem broadcast_fifo (c : Conn) (jobs : list (list Conn * Task)) (w : World) :
  is_Some (clients w !! c) →
  writable w c = true →
  jobs_fit jobs w →
  let w' := broadcast_all jobs w in
  delivered c (new_events w w') = (λ j, MsgJSON j.2) <$> jobs
  ∧ is_Some (clients w' !! c).
Proof.
  intros Hc Hw Hfit w'. subst w'.
  destruct (broadcast_all_trace c jobs w Hc Hw Hfit) as (evs & Htr & Hdel & Hc' & _).
  split; [|done]. by rewrite (new_events_app _ _ _ Htr).
Qed.

Lemma broadcast_fifo_witness :
  let t1 := mkTask 1 "first" "alice" "open" 0 in
  let t2 := mkTask 2 "second" "bob" "open" 0 in
  let jobs := [([2%positive; 3%positive; 1%positive], t1);
               ([1%positive; 3%positive], t2)] in
  is_Some (clients three_subscribers !! 3%positive)
  ∧ writable three_subscribers 3%positive = true
  ∧ jobs_fit jobs three_subscribers
  ∧ delivered 3%positive (new_events three_subscribers (broadcast_all jobs three_subscribers))
    = [MsgJSON t1; MsgJSON t2].
Proof.
  intros t1 t2 jobs.
  assert (H1 : is_Some (clients three_subscribers !! 3%positive)) by (by eexists).
  assert (H3 : jobs_fit jobs three_subscribers).
  { split; [exact three_subscribers_order|]. split; [|exact I].
    apply range_order_intro; [|by vm_compute].
    apply (bool_decide_unpack _). by vm_compute. }
  pose proof (broadcast_fifo 3%positive jobs three_subscribers H1 eq_refl H3) as [H _].
  split; [exact H1|]. split; [reflexivity|]. split; [exact H3|exact H].
Defined.

(** ** The read loop *)

Lemma send_or_drop_any (m : Msg) (x : Conn) (w : World) :
  filter (λ e, is_exec e = true) (send_events w m x) = []
  ∧ (∀ c, writable w c = false →
          delivered c (send_events w m x) = []
          ∧ writable (send_or_drop m x w) c = false)
  ∧ (∀ c, is_closed w c = true → is_closed (send_or_drop m x w) c = true).
Proof.
  split; [unfold send_events; by destruct (writable w x)|]. split.
  - intros c Hc. split.
    + rewrite delivered_send_events. rewrite decide_False; [done|]. intros [_ ?]. congruence.
    + unfold writable at 1. rewrite send_or_drop_conns.
      destruct (writable w x) eqn:Ex; [exact Hc|].
      destruct (decide (c = x)) as [->|Hne].
      * rewrite lookup_alter_eq. destruct (conns w !! x) as [st|]; [|done].
        simpl. by rewrite andb_false_r.
      * rewrite lookup_alter_ne by done. exact Hc.
  - intros c Hc. unfold is_closed in *. rewrite send_or_drop_conns.
    destruct (writable w x); [done|].
    destruct (decide (c = x)) as [->|Hne].
    + rewrite lookup_alter_eq. by destruct (conns w !! x).
    + by rewrite lookup_alter_ne.
Qed.

(** What a loop over [clients] logs and leaves, for any order: nothing for
    the store, no delivery to a connection that cannot be written to, and no
    closed connection open again. *)
Lemma range_clients_any (m : Msg) (order : list Conn) (w : World) :
  ∃ evs, trace (range_clients order (send_or_drop m) w) = trace w ++ evs
         ∧ filter (λ e, is_exec e = true) evs = []
         ∧ (∀ c, writable w c = false →
                 delivered c evs = []
                 ∧ writable (range_clients order (send_or_drop m) w) c = false)
         ∧ (∀ c, is_closed w c = true →
                 is_closed (range_clients order (send_or_drop m) w) c = true).
Proof.
  revert w. induction order as [|x rest IH]; intros w.
  - exists []. simpl. by rewrite app_nil_r.
  - rewrite range_clients_cons. case_decide; [|apply IH].
    destruct (IH (send_or_drop m x w)) as (evs & Htr & Hex & Hun & Hcl).
    destruct (send_or_drop_any m x w) as (Hex1 & Hun1 & Hcl1).
    exists (send_events w m x ++ evs). repeat split.
    + by rewrite Htr, send_or_drop_trace, <- app_assoc.
    + by rewrite filter_app, Hex1, Hex.
    + destruct (Hun1 c H0) as [Hd Hw]. destruct (Hun c Hw) as [Hd' _].
      by rewrite delivered_app, Hd, Hd'.
    + destruct (Hun1 c H0) as [_ Hw]. by destruct (Hun c Hw).
    + intros c Hc. by apply Hcl, Hcl1.
Qed.

Lemma ws_loop_any (c : Conn) (inputs : list (list Conn * Z * string)) (w : World) :
  ∃ evs, trace (ws_loop c inputs w) = trace w ++ evs
         ∧ filter (λ e, is_exec e = true) evs = []
         ∧ (∀ c0, writable w c0 = false →
                  delivered c0 evs = [] ∧ writable (ws_loop c inputs w) c0 = false)
         ∧ (∀ c0, is_closed w c0 = true → is_closed (ws_loop c inputs w) c0 = true).
Proof.
  revert w. induction inputs as [|[[order messageType] msg] rest IH]; intros w.
  - exists []. simpl. by rewrite app_nil_r.
  - simpl. unfold ws_on_message.
    destruct (range_clients_any (MsgRaw messageType msg) order w)
      as (evs1 & Htr1 & Hex1 & Hun1 & Hcl1).
    destruct (IH (range_clients order (send_or_drop (MsgRaw messageType msg)) w))
      as (evs & Htr & Hex & Hun & Hcl).
    exists (evs1 ++ evs). repeat split.
    + by rewrite Htr, Htr1, <- app_assoc.
    + by rewrite filter_app, Hex1, Hex.
    + destruct (Hun1 c0 H) as [Hd Hw]. destruct (Hun c0 Hw) as [Hd' _].
      by rewrite delivered_app, Hd, Hd'.
    + destruct (Hun1 c0 H) as [_ Hw]. by destruct (Hun c0 Hw).
    + intros c0 Hc. by apply Hcl, Hcl1.
Qed.

Lemma ws_loop_fanout (c c' : Conn) (inputs : list (list Conn * Z * string)) (w : World) :
  is_Some (clients w !! c') →
  writable w c' = true →
  orders_fit inputs w →
  ∃ evs, trace (ws_loop c inputs w) = trace w ++ evs
         ∧ delivered c' evs = frame_of <$> inputs.
Proof.
  revert w. induction inputs as [|[[order messageType] msg] rest IH];
    intros w Hc' Hw' Hfit.
  - exists []. simpl. by rewrite app_nil_r.
  - destruct Hfit as [Hro Hfit]. simpl.
    set (m := MsgRaw messageType msg).
    pose proof (range_order_NoDup _ _ Hro) as Hnd.
    assert (Hin : ∀ x, x ∈ order → is_Some (clients w !! x))
      by (intros x Hx; by apply (range_order_registered _ _ x Hro)).
    pose proof (range_send m order w Hnd Hin) as (_ & _ & Htr & _).
    destruct (range_clients_prunes m order w) as [_ H2].
    unfold ws_on_message in *. fold m in Hfit |- *.
    set (w1 := range_clients order (send_or_drop m) w) in *.
    destruct (H2 c' Hc' Hw') as [Hcl' Hco'].
    destruct (IH w1) as (evs & Htr' & Hdel); try done.
    + by rewrite Hcl'.
    + by rewrite (writable_conns _ _ _ Hco').
    + exists ((order ≫= send_events w m) ++ evs). split.
      * by rewrite Htr', Htr, <- app_assoc.
      * rewrite delivered_app, Hdel, (delivered_loop _ _ _ _ Hnd).
        rewrite decide_True; [done|]. split; [|done].
        by apply (range_order_registered _ _ c' Hro).
Qed.

(** X5. When the write of a frame back to its sender fails, the sender is
    unregistered and closed, but its read loop goes on: every frame that is
    read, that one and the ones after it, reaches the other registered
    clients whose connection works, in the order of reading and once each,
    and none of them reaches the sender. *)
Theorem ws_loop_goes_on_when_sender_fails
    (c : Conn) (order : list Conn) (messageType : Z) (msg : string)
    (rest : list (list Conn * Z * string)) (w : World) :
  range_order (clients w) order →
  is_Some (clients w !! c) →
  writable w c = false →
  orders_fit rest (ws_on_message order messageType msg w) →
  let w' := ws_loop c ((order, messageType, msg) :: rest) w in
  clients w' !! c = None
  ∧ is_closed w' c = true
  ∧ delivered c (new_events w w') = []
  ∧ (∀ c', is_Some (clients w !! c') → writable w c' = true →
           delivered c' (new_events w w')
           = frame_of <$> ((order, messageType, msg) :: rest)).
Proof.
  intros Hro Hc Hw Hfit w'.
  assert (Hfit' : orders_fit ((order, messageType, msg) :: rest) w) by (by split).
  pose proof (range_order_NoDup _ _ Hro) as Hnd.
  assert (Hin : ∀ x, x ∈ order → is_Some (clients w !! x))
    by (intros x Hx; by apply (range_order_registered _ _ x Hro)).
  pose proof (range_send (MsgRaw messageType msg) order w Hnd Hin) as H. cbv zeta in H.
  fold (ws_on_message order messageType msg w) in H.
  destruct H as (Hcl & Hco & _).
  set (w1 := ws_on_message order messageType msg w) in *.
  assert (Hd : c ∈ order ∧ writable w c = false)
    by (split; [by apply (range_order_registered _ _ c Hro)|done]).
  assert (Hgone : clients w1 !! c = None) by (by rewrite Hcl, decide_True).
  assert (Hclosed : is_closed w1 c = true).
  { unfold is_closed. rewrite Hco, decide_True by done. by destruct (conns w !! c). }
  change w' with (ws_loop c rest w1).
  repeat split.
  - destruct (ws_loop_prunes c rest w1) as [H1 _].
    destruct (clients (ws_loop c rest w1) !! c) as [v|] eqn:E; [|done].
    destruct (H1 c) as [Heq _]; [by rewrite E|]. congruence.
  - destruct (ws_loop_any c rest w1) as (_ & _ & _ & _ & Hk). by apply Hk.
  - destruct (ws_loop_any c ((order, messageType, msg) :: rest) w)
      as (evs & Htr & _ & Hun & _).
    change (ws_loop c ((order, messageType, msg) :: rest) w)
      with (ws_loop c rest w1) in Htr.
    rewrite (new_events_app _ _ _ Htr). by destruct (Hun c Hw).
  - intros c' Hc' Hw'.
    destruct (ws_loop_fanout c c' _ w Hc' Hw' Hfit') as (evs & Htr & Hdel).
    change (ws_loop c ((order, messageType, msg) :: rest) w)
      with (ws_loop c rest w1) in Htr.
    by rewrite (new_events_app _ _ _ Htr).
Qed.

Lemma failing_guest_orders :
  orders_fit [([1%positive; 2%positive], 1, "one"); ([1%positive], 1, "two");
              ([1%positive], 1, "three")]
             (ws_register 2%positive failing_guest).
Proof.
  split; [|split; [|split; [|exact I]]];
    (apply range_order_intro; [apply (bool_decide_unpack _)|]; by vm_compute).
Defined.

Lemma ws_loop_goes_on_when_sender_fails_witness :
  let w := ws_register 2%positive failing_guest in
  let rest := [([1%positive], 1, "two"); ([1%positive], 1, "three")] in
  range_order (clients w) [1%positive; 2%positive]
  ∧ is_Some (clients w !! 2%positive)
  ∧ writable w 2%positive = false
  ∧ orders_fit rest (ws_on_message [1%positive; 2%positive] 1 "one" w)
  ∧ delivered 1%positive
      (new_events w (ws_loop 2%positive (([1%positive; 2%positive], 1, "one") :: rest) w))
    = [MsgRaw 1 "one"; MsgRaw 1 "two"; MsgRaw 1 "three"]
  ∧ delivered 2%positive
      (new_events w (ws_loop 2%positive (([1%positive; 2%positive], 1, "one") :: rest) w))
    = [].
Proof.
  intros w rest.
  destruct failing_guest_orders as [Hro Hfit].
  assert (H2 : is_Some (clients w !! 2%positive)) by (by eexists).
  assert (H1 : is_Some (clients w !! 1%positive)) by (by eexists).
  pose proof (ws_loop_goes_on_when_sender_fails 2%positive [1%positive; 2%positive] 1 "one"
                rest w Hro H2 eq_refl Hfit) as (_ & _ & Hnone & Hall).
  split; [exact Hro|]. split; [exact H2|]. split; [reflexivity|]. split; [exact Hfit|].
  split; [exact (Hall 1%positive H1 eq_refl)|exact Hnone].
Defined.

(** ** Every frame of a connection *)






(** ** The task handlers *)

Lemma new_events_same (w : World) : new_events w w = [].
Proof. unfold new_events. apply drop_all. Qed.

(** X6. A task is stored exactly when [createTask] answers 200: then one row
    is added at the end of the table, with the store's identifier, the three
    fields of the request and the time of the call, and the rows before it
    are as they were. With any other answer the table, the registry and the
    connections are unchanged and nothing is broadcast. This holds for any
    order of the loop. *)
Theorem createTask_stores_iff_200
    (now : Time) (db_ok : bool) (order : list Conn) (b : Body) (w : World) :
  let r := (createTask now db_ok order b w).1 in
  let w' := (createTask now db_ok order b w).2 in
  (status r = 200 →
     ∃ task, BodyParser b = Some task
       ∧ db_tasks w'
         = db_tasks w
           ++ [mkTask (db_next_id w) (Title task) (Assigned task) (Status task) now]
       ∧ db_next_id w' = db_next_id w + 1)
  ∧ (status r ≠ 200 →
       db_tasks w' = db_tasks w
       ∧ db_next_id w' = db_next_id w
       ∧ clients w' = clients w
       ∧ conns w' = conns w
       ∧ filter (λ e, is_write e = true) (new_events w w') = []
       ∧ filter (λ e, is_broadcast e = true) (new_events w w') = []).
Proof.
  intros r w'. subst r w'. unfold createTask.
  destruct (BodyParser b) as [task|]; simpl.
  - destruct db_ok; simpl.
    + split; [|done]. intros _. exists task. split; [done|].
      unfold broadcastTaskUpdate.
      by destruct (range_clients_db (MsgJSON task) order
                     (log (EvBroadcast task)
                        (mkWorld (clients w) (conns w)
                           (db_tasks w ++ [mkTask (db_next_id w) (Title task)
                                             (Assigned task) (Status task) now])
                           (db_next_id w + 1)
                           (trace w ++ [EvExec (Title task) (Assigned task)
                                          (Status task) now true]))))
        as [-> ->].
    + split; [done|]. intros _.
      rewrite (new_events_app w _ [EvExec (Title task) (Assigned task) (Status task)
                                     now false]) by done.
      done.
  - split; [done|]. intros _. by rewrite new_events_same.
Qed.

Lemma createTask_stores_iff_200_witness :
  status (createTask 1000 true [1%positive] body_X one_subscriber).1 = 200
  ∧ status (createTask 1000 false [1%positive] body_X one_subscriber).1 ≠ 200
  ∧ (∃ task, BodyParser body_X = Some task
       ∧ db_tasks (createTask 1000 true [1%positive] body_X one_subscriber).2
         = db_tasks one_subscriber
           ++ [mkTask (db_next_id one_subscriber) (Title task) (Assigned task)
                 (Status task) 1000]
       ∧ db_next_id (createTask 1000 true [1%positive] body_X one_subscriber).2
         = db_next_id one_subscriber + 1)
  ∧ db_tasks (createTask 1000 false [1%positive] body_X one_subscriber).2
    = db_tasks one_subscriber.
Proof.
  assert (H1 : status (createTask 1000 true [1%positive] body_X one_subscriber).1 = 200)
    by reflexivity.
  assert (H2 : status (createTask 1000 false [1%positive] body_X one_subscriber).1 ≠ 200)
    by done.
  split; [exact H1|]. split; [exact H2|]. split.
  - exact (proj1 (createTask_stores_iff_200 1000 true [1%positive] body_X one_subscriber)
             H1).
  - exact (proj1 (proj2 (createTask_stores_iff_200 1000 false [1%positive] body_X
                           one_subscriber) H2)).
Defined.

Lemma collect_tasks_elems (scans : list (option Task)) (s : Slice Task) :
  elems (foldl (λ tasks sc, match sc with Some task => append tasks task | None => tasks end)
               s scans)
  = elems s ++ omap id scans.
Proof.
  revert s. induction scans as [|sc scans IH]; intros s; simpl.
  - by rewrite app_nil_r.
  - rewrite IH. destruct sc as [task|]; simpl; [|done]. by rewrite <- app_assoc.
Qed.

(** X7. When the query succeeds, [getTasks] answers 200 with the rows whose
    scan succeeded, in the order of the rows; a row whose scan fails is left
    out without a word, and the answer is still 200. The handler changes
    nothing but the log. *)
Theorem getTasks_lists_scanned_rows (scans : list (option Task)) (w : World) :
  getTasks (QueryRows scans) w
  = (mkResponse 200 (JArray (omap id scans)), log (EvQuery true) w).
Proof.
  unfold getTasks. pose proof (collect_tasks_elems scans nil_slice) as H.
  unfold collect_tasks. simpl in H.
  destruct (foldl _ nil_slice scans) as [|l] eqn:E; simpl in *.
  - by rewrite <- H.
  - subst l. unfold len. simpl. by destruct (omap id scans).
Qed.

(** ** Login *)

Lemma expiry_in_seconds (now : Z) :
  ((now + 24 * 3600 * 10 ^ 9) `div` 10 ^ 9 = now `div` 10 ^ 9 + 86400)%Z.
Proof.
  change (24 * 3600 * 10 ^ 9)%Z with (86400 * 10 ^ 9)%Z.
  by rewrite Z.div_add.
Qed.

Lemma GetUserFromDB_Some (db_ok : bool) (username : string) (users : list User)
    (user : User) :
  GetUserFromDB db_ok username users = Some user →
  db_ok = true ∧ user ∈ users ∧ user_Username user = username.
Proof.
  unfold GetUserFromDB. destruct db_ok; [|done].
  destruct (list_find _ users) as [[i u]|] eqn:E; [|done].
  intros [= <-]. apply list_find_Some in E as (Hi & HP & _).
  split; [done|]. split; [|done]. by apply list_elem_of_lookup_2 in Hi.
Qed.

(** X8. [LoginHandler] answers 400 exactly when the body does not decode,
    and 200 exactly when the lookup gives a row for the name, the password
    of the row equals the one of the request as a string, and the signing
    succeeds; the token is then the signature of the identifier and the name
    of that row with an expiry 86400 seconds after the second of the call.
    A failure of the database during the lookup is answered like a wrong
    password, with 401. *)
Theorem LoginHandler_outcomes
    (SignedString : JWTClaims → string → option string) (secret : string) (now : Z)
    (db_ok : bool) (b : ParsedBody LoginJSON) (users : list User) :
  let r := LoginHandler SignedString secret now db_ok b users in
  (status r = 400 ↔ parse_LoginRequest b = None)
  ∧ (status r = 200 ↔
       ∃ req user token,
         parse_LoginRequest b = Some req
         ∧ GetUserFromDB db_ok (login_Username req) users = Some user
         ∧ user ∈ users
         ∧ user_Username user = login_Username req
         ∧ user_Password user = login_Password req
         ∧ SignedString
             (mkClaims (user_ID user) (user_Username user) (now `div` 10 ^ 9 + 86400)%Z)
             secret = Some token
         ∧ r = mkResponse 200 (JMap "token" token))
  ∧ (∀ req, parse_LoginRequest b = Some req → db_ok = false →
        r = mkResponse 401 (JMap "error" "Unauthorized")).
Proof.
  intros r. subst r. unfold LoginHandler, GenerateJWT. rewrite expiry_in_seconds.
  destruct (parse_LoginRequest b) as [req|] eqn:Eb.
  2: { split; [done|]. split; [|done]. split; [done|]. by intros (? & ? & ? & ? & _). }
  destruct (GetUserFromDB db_ok (login_Username req) users) as [user|] eqn:Eu.
  2: { split; [done|]. split; [|done]. split; [done|].
       intros (req' & ? & ? & [= <-] & Hu & _). congruence. }
  pose proof (GetUserFromDB_Some _ _ _ _ Eu) as (Hdb & Hin & Hname).
  destruct (decide (user_Password user ≠ login_Password req)) as [Hpw|Hpw].
  { split; [done|]. split; [|intros ? _ ?; congruence]. split; [done|].
    intros (req' & user' & ? & [= <-] & Hu & _ & _ & Hp & _). congruence. }
  apply dec_stable in Hpw.
  destruct (SignedString _ secret) as [token|] eqn:Es.
  - split; [done|]. split; [|intros ? _ ?; congruence]. split; [|done].
    intros _. exists req, user, token. by rewrite Es.
  - split; [done|]. split; [|intros ? _ ?; congruence]. split; [done|].
    intros (req' & user' & token & [= <-] & Hu & _ & _ & _ & Hs & _). congruence.
Qed.

Lemma LoginHandler_outcomes_witness :
  let users := [mkUser 1 "alice" "wonder"] in
  parse_LoginRequest (JsonBody (mkLoginJSON (Value "alice") (Value "wonder")))
  = Some (mkLoginRequest "alice" "wonder")
  ∧ LoginHandler sample_sign "k" 0 false
      (JsonBody (mkLoginJSON (Value "alice") (Value "wonder"))) users
    = mkResponse 401 (JMap "error" "Unauthorized").
Proof.
  intros users. split; [reflexivity|].
  exact (proj2 (proj2 (LoginHandler_outcomes sample_sign "k" 0 false
                         (JsonBody (mkLoginJSON (Value "alice") (Value "wonder"))) users))
           (mkLoginRequest "alice" "wonder") eq_refl eq_refl).
Defined.

(** X9. Registration followed by login. When a registration succeeds for a
    name no row has yet, the table gains one row with the store's
    identifier, the name and the password as they were sent (the identifier
    of the body is not used); a login with that name then gets a token for
    that row if its password is the same string, and 401 otherwise. *)
Theorem register_then_login
    (SignedString : JWTClaims → string → option string) (secret : string) (now : Z)
    (new_id : Z) (b : ParsedBody UserJSON) (users : list User) (user : User)
    (lb : ParsedBody LoginJSON) (password : string) :
  parse_User b = Some user →
  Forall (λ u, user_Username u ≠ user_Username user) users →
  parse_LoginRequest lb = Some (mkLoginRequest (user_Username user) password) →
  let users' := (registerUser true new_id b users).2 in
  users' = users ++ [mkUser new_id (user_Username user) (user_Password user)]
  ∧ LoginHandler SignedString secret now true lb users'
    = if decide (password = user_Password user) then
        match SignedString
                (mkClaims new_id (user_Username user) (now `div` 10 ^ 9 + 86400)%Z) secret
        with
        | Some token => mkResponse 200 (JMap "token" token)
        | None => mkResponse 500 (JMap "error" "Failed to generate token")
        end
      else mkResponse 401 (JMap "error" "Unauthorized").
Proof.
  intros Hb Hfresh Hlb users'. subst users'. unfold registerUser. rewrite Hb. simpl.
  split; [done|].
  unfold LoginHandler, GenerateJWT. rewrite Hlb, expiry_in_seconds. simpl.
  unfold GetUserFromDB. rewrite list_find_app_r by (by apply list_find_None).
  simpl. rewrite decide_True by done. simpl.
  destruct (decide (password = user_Password user)) as [->|Hne].
  - by rewrite decide_False by (intros H; by apply H).
  - by rewrite decide_True by congruence.
Qed.

Lemma register_then_login_witness :
  let b := JsonBody (mkUserJSON (Value 99) (Value "bob") (Value "builder")) in
  let lb := JsonBody (mkLoginJSON (Value "bob") (Value "builder")) in
  let users := [mkUser 1 "alice" "wonder"] in
  parse_User b = Some (mkUser 99 "bob" "builder")
  ∧ Forall (λ u, user_Username u ≠ "bob") users
  ∧ parse_LoginRequest lb = Some (mkLoginRequest "bob" "builder")
  ∧ (registerUser true 2 b users).2 = [mkUser 1 "alice" "wonder"; mkUser 2 "bob" "builder"]
  ∧ LoginHandler sample_sign "k" 0 true lb (registerUser true 2 b users).2
    = mkResponse 200 (JMap "token" "bobk").
Proof.
  intros b lb users.
  assert (Hf : Forall (λ u, user_Username u ≠ user_Username (mkUser 99 "bob" "builder"))
                 users)
    by (by repeat constructor).
  pose proof (register_then_login sample_sign "k" 0 2 b users (mkUser 99 "bob" "builder")
                lb "builder" eq_refl Hf eq_refl) as [H1 H2].
  split; [reflexivity|]. split; [exact Hf|]. split; [reflexivity|].
  split; [exact H1|exact H2].
Defined.

(** ** Start of the process *)

Lemma Getenv_Load (key : string) (process_env : gmap string string)
    (assignments : list (string * string)) :
  Getenv key (process_env ∪ dotenv_map assignments)
  = match process_env !! key with
    | Some v => v
    | None => Getenv key (dotenv_map assignments)
    end.
Proof.
  unfold Getenv. rewrite lookup_union.
  destruct (process_env !! key) as [v|] eqn:E.
  - by destruct (dotenv_map assignments !! key).
  - by rewrite (left_id_L None _).
Qed.

(** X10. Where the settings come from. The process does not start without a
    readable [.env], whatever the environment holds. When it starts, the key
    that signs the tokens is the JWT_SECRET of the environment of the
    process alone: an assignment in [.env] never reaches it, and without the
    variable in the environment the key is empty. Every variable read later
    (DATABASE_URL by [main], OPENAI_API_KEY by [suggestTask]) has the value
    of the environment if it is set there and the one of [.env] otherwise. *)
Theorem boot_settings (process_env : gmap string string) (connect : string → bool) :
  boot process_env None connect = FatalDotenv
  ∧ ∀ assignments cfg,
      boot process_env (Some assignments) connect = Serving cfg →
      jwtSecret cfg = Getenv "JWT_SECRET" process_env
      ∧ (process_env !! "JWT_SECRET" = None → jwtSecret cfg = "")
      ∧ connect (dbURL cfg) = true
      ∧ dbURL cfg = Getenv "DATABASE_URL" (environ cfg)
      ∧ ∀ key, Getenv key (environ cfg)
               = match process_env !! key with
                 | Some v => v
                 | None => Getenv key (dotenv_map assignments)
                 end.
Proof.
  split; [reflexivity|]. intros assignments cfg. unfold boot. simpl.
  destruct (connect _) eqn:Ec; [|done]. intros [= <-]. simpl.
  repeat split; try done.
  - intros H. unfold Getenv. by rewrite H.
  - intros key. apply Getenv_Load.
Qed.

Lemma boot_settings_witness :
  let file := [("JWT_SECRET", "s3cret"); ("DATABASE_URL", "postgres://db")] in
  let cfg := mkConfig "" "postgres://db" (∅ ∪ dotenv_map file) in
  boot ∅ (Some file) (λ _, true) = Serving cfg
  ∧ jwtSecret cfg = ""
  ∧ Getenv "JWT_SECRET" (environ cfg) = "s3cret".
Proof.
  intros file cfg.
  assert (H : boot ∅ (Some file) (λ _, true) = Serving cfg) by reflexivity.
  pose proof (proj2 (boot_settings ∅ (λ _, true)) file cfg H) as (_ & Hs & _).
  split; [exact H|]. split; [exact (Hs eq_refl)|]. by vm_compute.
Defined.

(** ** Suggestions *)

Lemma json_lookup_last (key : string) (fields : list (string * JValue)) (v : JValue) :
  json_lookup key (fields ++ [(key, v)]) = Some v.
Proof.
  induction fields as [|[k v'] fields IH]; simpl.
  - by rewrite decide_True.
  - by rewrite IH.
Qed.

Lemma json_lookup_missing (key : string) (fields : list (string * JValue)) :
  Forall (λ kv, kv.1 ≠ key) fields → json_lookup key fields = None.
Proof.
  induction 1 as [|[k v] fields Hk _ IH]; [done|]. simpl in *.
  rewrite IH. by rewrite decide_False.
Qed.

(** X11. [callOpenAI] gives a suggestion exactly when the body of the
    response is a JSON object whose [choices] is an array that starts with
    an object whose [text] is a string, and the suggestion is that string.
    The status of the response plays no part. Of two members with the same
    name the handler sees the later one, and a name that is missing is an
    error, not a crash. *)
Theorem callOpenAI_suggestion
    (http : OpenAIRequest → HttpResult) (prompt apiKey : string) :
  (∀ text,
     callOpenAI http prompt apiKey = Suggestion text
     ↔ ∃ code fields choice others,
         http (openai_request prompt apiKey) = HttpResponse code (Some (JVObject fields))
         ∧ json_lookup "choices" fields = Some (JVArray (JVObject choice :: others))
         ∧ json_lookup "text" choice = Some (JVString text))
  ∧ (∀ key fields v, json_lookup key (fields ++ [(key, v)]) = Some v)
  ∧ (∀ code fields,
       http (openai_request prompt apiKey) = HttpResponse code (Some (JVObject fields)) →
       Forall (λ kv, kv.1 ≠ "choices") fields →
       callOpenAI http prompt apiKey = OtherError "invalid response from OpenAI").
Proof.
  split; [|split; [apply json_lookup_last|]].
  - intros text. unfold callOpenAI. split.
    + destruct (http _) as [|code doc]; [done|].
      destruct doc as [[| | | | |fields]|]; simpl; try done.
      destruct (json_lookup "choices" fields) as [[| | | |items|]|] eqn:Ec; try done.
      destruct items as [|first others]; [done|].
      destruct first as [| | | | |choice]; try done.
      destruct (json_lookup "text" choice) as [[| | |s| |]|] eqn:Et; try done.
      intros [= <-]. by exists code, fields, choice, others.
    + intros (code & fields & choice & others & -> & Hc & Ht). simpl.
      by rewrite Hc, Ht.
  - intros code fields Hh Hmiss. unfold callOpenAI. rewrite Hh. simpl.
    by rewrite (json_lookup_missing _ _ Hmiss).
Qed.

Lemma callOpenAI_suggestion_witness :
  let http := λ _ : OpenAIRequest,
        HttpResponse 401 (Some (JVObject [("error", JVString "invalid key")])) in
  http (openai_request "plan my week" "") 
  = HttpResponse 401 (Some (JVObject [("error", JVString "invalid key")]))
  ∧ Forall (λ kv : string * JValue, kv.1 ≠ "choices") [("error", JVString "invalid key")]
  ∧ callOpenAI http "plan my week" "" = OtherError "invalid response from OpenAI".
Proof.
  intros http.
  assert (Hf : Forall (λ kv : string * JValue, kv.1 ≠ "choices")
                 [("error", JVString "invalid key")])
    by (by repeat constructor).
  split; [reflexivity|]. split; [exact Hf|].
  exact (proj2 (proj2 (callOpenAI_suggestion http "plan my week" ""))
           401 [("error", JVString "invalid key")] eq_refl Hf).
Defined.

(** X12. [suggestTask] answers 400 exactly when the body does not decode,
    200 with the text exactly when [callOpenAI] gives one, and otherwise the
    same 500 whatever went wrong. The one request it makes carries the
    prompt of the body as it is (the empty prompt when the body has none)
    and the OPENAI_API_KEY of the environment at that moment after the word
    Bearer: the answer depends on the remote end through that request
    only. *)
Theorem suggestTask_outcomes
    (http : OpenAIRequest → HttpResult) (env : gmap string string)
    (b : ParsedBody PromptJSON) :
  let r := suggestTask http env b in
  (status r = 400 ↔ parse_Prompt b = None)
  ∧ (∀ text, r = mkResponse 200 (JMap "suggestion" text)
             ↔ ∃ prompt, parse_Prompt b = Some prompt
                 ∧ callOpenAI http prompt (Getenv "OPENAI_API_KEY" env) = Suggestion text)
  ∧ (status r ≠ 200 → status r ≠ 400 →
       r = mkResponse 500 (JMap "error" "Failed to get AI suggestions"))
  ∧ (∀ prompt http',
       parse_Prompt b = Some prompt →
       http' (mkOpenAIRequest "https://api.openai.com/v1/completions"
                (String.append "Bearer " (Getenv "OPENAI_API_KEY" env))
                "application/json" "gpt-4" prompt 100)
       = http (openai_request prompt (Getenv "OPENAI_API_KEY" env)) →
       suggestTask http' env b = r).
Proof.
  intros r. subst r. unfold suggestTask.
  destruct (parse_Prompt b) as [prompt|] eqn:Eb.
  - destruct (callOpenAI http prompt (Getenv "OPENAI_API_KEY" env)) as [text| |msg] eqn:Ec.
    + split; [done|]. split; [|split; [done|]].
      * intros text'. split; [intros [= <-]; by exists prompt|].
        intros (p & [= <-] & Hc). congruence.
      * intros p http' [= <-] Hh. unfold callOpenAI, openai_request in *.
        rewrite Hh. by rewrite Ec.
    + split; [done|]. split; [|split; [done|]].
      * intros text'. split; [done|]. intros (p & [= <-] & Hc). congruence.
      * intros p http' [= <-] Hh. unfold callOpenAI, openai_request in *.
        rewrite Hh. by rewrite Ec.
    + split; [done|]. split; [|split; [done|]].
      * intros text'. split; [done|]. intros (p & [= <-] & Hc). congruence.
      * intros p http' [= <-] Hh. unfold callOpenAI, openai_request in *.
        rewrite Hh. by rewrite Ec.
  - split; [done|]. split; [|split; [done|done]].
    intros text. split; [done|]. by intros (p & ? & _).
Qed.

Lemma suggestTask_outcomes_witness :
  let http := λ _ : OpenAIRequest,
        HttpResponse 401 (Some (JVObject [("error", JVString "invalid key")])) in
  let b := JsonBody (mkPromptJSON (Value "plan my week")) in
  status (suggestTask http ∅ b) ≠ 200
  ∧ status (suggestTask http ∅ b) ≠ 400
  ∧ suggestTask http ∅ b = mkResponse 500 (JMap "error" "Failed to get AI suggestions").
Proof.
  intros http b.
  assert (H1 : status (suggestTask http ∅ b) ≠ 200) by done.
  assert (H2 : status (suggestTask http ∅ b) ≠ 400) by done.
  split; [exact H1|]. split; [exact H2|].
  exact (proj1 (proj2 (proj2 (suggestTask_outcomes http ∅ b))) H1 H2).
Defined.

(** ** Registration *)

(** X13. A user is stored exactly when [registerUser] answers 200: then one
    row is added at the end of the table with the store's identifier and the
    name and the password of the body as they are, the empty string for one
    that is missing; an identifier in the body is not used. With any other
    answer the table is unchanged. The answer is 400 exactly when the body
    does not decode. *)
Theorem registerUser_outcomes
    (db_ok : bool) (new_id : Z) (b : ParsedBody UserJSON) (users : list User) :
  let r := (registerUser db_ok new_id b users).1 in
  let users' := (registerUser db_ok new_id b users).2 in
  (status r = 400 ↔ parse_User b = None)
  ∧ (status r = 200 ↔ db_ok = true ∧ is_Some (parse_User b))
  ∧ (status r = 200 →
       ∃ o, b = JsonBody o
         ∧ users' = users ++ [mkUser new_id (field_or "" (uj_username o))
                                (field_or "" (uj_password o))])
  ∧ (status r ≠ 200 → users' = users).
Proof.
  intros r users'. subst r users'. unfold registerUser.
  destruct (parse_User b) as [user|] eqn:Eb.
  - destruct db_ok; simpl.
    + split; [done|]. split; [by split; [|intros _]|]. split; [|done]. intros _.
      destruct b as [|o]; [done|]. exists o. split; [done|].
      simpl in Eb. destruct (decode_int (uj_id o)); simpl in Eb; [|done].
      destruct (decode_field "" (uj_username o)) eqn:E1; simpl in Eb; [|done].
      destruct (decode_field "" (uj_password o)) eqn:E2; simpl in Eb; [|done].
      injection Eb as <-. simpl.
      by rewrite (decode_field_Some _ _ _ E1), (decode_field_Some _ _ _ E2).
    + split; [done|]. split; [|done]. split; [done|]. by intros [? _].
  - split; [done|]. split; [|done]. split; [done|]. intros [_ H]. by apply is_Some_None in H.
Qed.

Lemma registerUser_outcomes_witness :
  let b := JsonBody (mkUserJSON (Value 99) (Value "bob") Absent) in
  status (registerUser true 2 b []).1 = 200
  ∧ ∃ o, b = JsonBody o
      ∧ (registerUser true 2 b []).2
        = [] ++ [mkUser 2 (field_or "" (uj_username o)) (field_or "" (uj_password o))].
Proof.
  intros b.
  assert (H : status (registerUser true 2 b []).1 = 200) by reflexivity.
  split; [exact H|].
  exact (proj1 (proj2 (proj2 (registerUser_outcomes true 2 b []))) H).
Defined.

(** ** The whole life of a connection *)

(** X14. While the connection of a client works, every frame the client
    sends reaches every registered client whose connection works, the
    sender among them, in the order of sending and once each; when the
    handler returns, the sender is out of the registry. *)
Theorem ws_handler_fanout_in_order
    (c c' : Conn) (inputs : list (list Conn * Z * string)) (w : World) :
  writable w c = true →
  c' = c ∨ is_Some (clients w !! c') →
  writable w c' = true →
  orders_fit inputs (ws_register c w) →
  let w' := ws_handler c inputs w in
  delivered c' (new_events w w') = frame_of <$> inputs
  ∧ clients w' !! c = None.
Proof.
  intros Hw Hc' Hw' Hfit w'. subst w'. unfold ws_handler.
  destruct (ws_loop_fanout c c' inputs (ws_register c w)) as (evs & Htr & Hdel);
    try done.
  - simpl. unfold register. destruct (decide (c' = c)) as [->|Hne].
    + rewrite lookup_insert_eq. by eexists.
    + rewrite lookup_insert_ne by done. by destruct Hc'.
  - split.
    + rewrite (new_events_app _ _ (evs ++ [EvClose c])).
      * rewrite delivered_app, Hdel. simpl. by rewrite app_nil_r.
      * unfold ws_deferred. simpl. rewrite Htr. simpl. by rewrite <- app_assoc.
    + unfold ws_deferred. simpl. unfold unregister. apply lookup_delete_eq.
Qed.

Lemma ws_handler_fanout_in_order_witness :
  let inputs := [([2%positive; 1%positive], 1, "one"); ([1%positive; 2%positive], 2, "two")] in
  writable lobby 2%positive = true
  ∧ is_Some (clients lobby !! 1%positive)
  ∧ writable lobby 1%positive = true
  ∧ orders_fit inputs (ws_register 2%positive lobby)
  ∧ delivered 1%positive (new_events lobby (ws_handler 2%positive inputs lobby))
    = [MsgRaw 1 "one"; MsgRaw 2 "two"].
Proof.
  intros inputs.
  assert (H1 : is_Some (clients lobby !! 1%positive)) by (by eexists).
  assert (Hfit : orders_fit inputs (ws_register 2%positive lobby)).
  { split; [exact lobby_order|]. split; [|exact I].
    apply range_order_intro; [|by vm_compute].
    apply (bool_decide_unpack _). by vm_compute. }
  pose proof (ws_handler_fanout_in_order 2%positive 1%positive inputs lobby
                eq_refl (or_intror H1) eq_refl Hfit) as [H _].
  split; [reflexivity|]. split; [exact H1|]. split; [reflexivity|].
  split; [exact Hfit|exact H].
Defined.
